(** * kocache: a single-flight cache with LRU eviction and lifetimes

    A shallow embedding of [kocache.go] (the generic [Cache[K, V]]) and the
    properties of its entry life cycle.

    Layout of the development:
    - the data model ([entry], the closure state of a reservation, [Cache]);
    - the operations, one Rocq function per Go function, over an explicit
      machine state: the cache, the heap of entries that the cache and the
      resolve closures point into, and the clock read by [time.Now];
    - programs of one caller, as sequences of calls;
    - an interleaving semantics at the granularity of the statements of
      [GetWithTimeout] and of the resolve closure, for the properties that
      speak about concurrent callers;
    - the predicates of the statements and the invariant of the semantics;
    - the theorems: the store, one caller, concurrent callers, and the
      scenario of the tests. *)

From Stdlib Require Import ZArith Lia.
From stdpp Require Import base tactics option list strings.

Local Open Scope Z_scope.

(** ** Time

    [time.Time] is an instant; only three of its operations are used.  An
    instant is represented by its distance in nanoseconds from Go's zero
    [Time] (January 1, year 1), so that [IsZero] is a comparison with [0]; a
    [time.Duration] is a signed number of nanoseconds.  [Time] stores seconds
    in an [int64], so [Add] does not saturate for any clock reading and
    duration a program can produce, and no wrap-around is written here.
    Readings of [time.Now] are strictly after the zero instant; theorems that
    need it say so. *)

Definition Time := Z.
Definition Duration := Z.

Definition IsZero (t : Time) : bool := t =? 0.
(** [After t u] is [t.After(u)]. *)
Definition After (t u : Time) : bool := u <? t.
(** [Add t d] is [t.Add(d)]. *)
Definition Add (t : Time) (d : Duration) : Time := t + d.

(** ** Errors

    Go's [error] is an interface; [nil] is [None] in [option error].  The
    three sentinels of the package are constructors, and [ErrProducer] stands
    for any other error value a producer hands to its resolve function.  A
    producer may also hand over one of the sentinels. *)

Inductive error :=
| ErrEntryNotFound
| ErrExpired
| ErrGetCacheTimeout
| ErrProducer (msg : string).

#[global] Instance error_eq_dec : EqDecision error.
Proof. solve_decision. Defined.

(** The zero value of a Go type ([var v V]). *)
Class Zero (V : Type) := zero : V.
#[global] Instance string_Zero : Zero string := EmptyString.

(** ** Statistics: two [uint32] counters bumped by [atomic.AddUint32]. *)

Definition uint32_modulus : Z := 2 ^ 32.
Definition AddUint32 (x delta : Z) : Z := (x + delta) mod uint32_modulus.

Record Stats := mkStats { Hits : Z; Misses : Z }.

(** ** Options *)

Definition DefaultSize : Z := 1024.

Record options := mkOptions {
  opt_size : Z;
  opt_withStats : bool;
  opt_defaultLifetime : Duration
}.

(** The three implementations of the [Option] interface and their [Apply]. *)
Inductive Option :=
| WithStats
| WithSize (size : Z)
| WithDefaultLifetime (defaultLifetime : Duration).

Definition Apply (w : Option) (opts : options) : options :=
  match w with
  | WithStats =>
      {| opt_size := opt_size opts; opt_withStats := true;
         opt_defaultLifetime := opt_defaultLifetime opts |}
  | WithSize sz =>
      {| opt_size := sz; opt_withStats := opt_withStats opts;
         opt_defaultLifetime := opt_defaultLifetime opts |}
  | WithDefaultLifetime d =>
      {| opt_size := opt_size opts; opt_withStats := opt_withStats opts;
         opt_defaultLifetime := d |}
  end.

(** Entries live on the heap; the cache and the resolve closures hold
    pointers to them. *)
Abbreviation addr := nat (only parsing).

(** A [ResolveFunc] is the closure over the slot allocated by the
    reservation that returned it. *)
Abbreviation ResolveFunc := addr (only parsing).

(** ** The bounded store

    The store is the package [github.com/hashicorp/golang-lru/v2]; its code
    is not part of the repository.  Its four operations used by the cache are
    modelled from the contract that section 4.1 of the specification gives
    for it. *)

Section Store.
Context {K : Type} `{EqDecision K} {A : Type}.

(** Modelled from the spec: the bounded key-value store, "fixed-capacity
    associative container ... storing one Slot per key, ordered by recency of
    access".  The items are kept most recently used first. *)
Record LRU := mkLRU { lru_size : Z; lru_items : list (K * A) }.

Fixpoint assoc (key : K) (l : list (K * A)) : option A :=
  match l with
  | [] => None
  | (k, v) :: l' => if decide (k = key) then Some v else assoc key l'
  end.

Fixpoint remove_key (key : K) (l : list (K * A)) : list (K * A) :=
  match l with
  | [] => []
  | (k, v) :: l' =>
      if decide (k = key) then remove_key key l' else (k, v) :: remove_key key l'
  end.

(** The least recently used item is the one at the back. *)
Definition remove_oldest (l : list (K * A)) : list (K * A) :=
  take (length l - 1)%nat l.

(** Modelled from the spec: [lru.New], missing from the sources.  "capacity:
    int (default 1024, must be > 0) ... Invalid capacity fails construction
    with a configuration error." *)
Definition lru_New (size : Z) : option LRU :=
  if size <=? 0 then None
  else Some {| lru_size := size; lru_items := [] |}.

(** Modelled from the spec: [Add], missing from the sources.  "inserts or
    replaces the slot for key; marks it most-recently-used; if insertion
    causes the store to exceed its fixed capacity, evicts the single
    least-recently-used entry". *)
Definition lru_Add (c : LRU) (key : K) (v : A) : LRU :=
  match assoc key (lru_items c) with
  | Some _ =>
      {| lru_size := lru_size c;
         lru_items := (key, v) :: remove_key key (lru_items c) |}
  | None =>
      let items := (key, v) :: lru_items c in
      {| lru_size := lru_size c;
         lru_items := if lru_size c <? Z.of_nat (length items)
                      then remove_oldest items else items |}
  end.

(** Modelled from the spec: [Get] of the store, missing from the sources.
    "returns the current slot for key if present and marks it
    most-recently-used; does not block". *)
Definition lru_Get (c : LRU) (key : K) : option A * LRU :=
  match assoc key (lru_items c) with
  | Some v =>
      (Some v, {| lru_size := lru_size c;
                  lru_items := (key, v) :: remove_key key (lru_items c) |})
  | None => (None, c)
  end.

(** A lookup that leaves the recency order alone; used in statements. *)
Definition lru_Peek (c : LRU) (key : K) : option A := assoc key (lru_items c).

(** Modelled from the spec: [Len] of the store, missing from the sources.
    "Size() -> int: current entry count." *)
Definition lru_Len (c : LRU) : Z := Z.of_nat (length (lru_items c)).
End Store.
Arguments LRU : clear implicits.

(** ** Entries and reservations *)

Section Model.
Context {K : Type} `{EqDecision K} {V : Type} `{Zero V}.

(** [lock] is [nil] or the channel made at reservation; there is one
    channel per entry, so a non-nil [lock] is [Some Chan] and the state of
    that channel is the [closed] field of the enclosing [slot]. *)
Inductive chan := Chan.

Record entry := mkEntry {
  lock : option chan;
  value : V;
  err : option error;
  expireAt : Time  (* zero means no expiration *)
}.

(** What one call of [ReserveWithLifetime] allocates: the entry, its
    channel, and the variables captured by the resolve closure ([mux],
    [reserved], [lifetime]). *)
Record slot := mkSlot {
  ent : entry;
  closed : bool;       (* the channel has been closed *)
  mux : bool;          (* the mutex is held *)
  reserved : bool;
  lifetime : Duration
}.

Record Cache := mkCache {
  cache : LRU K addr;
  opts : options;
  stats : Stats
}.

(** The state all operations act on. *)
Record machine := mkMachine {
  cch : Cache;
  heap : list slot;
  clock : Time         (* what [time.Now()] returns *)
}.

(** ** Construction *)

Definition New (os : list Option) : option Cache :=
  let o := foldl (fun acc w => Apply w acc)
             {| opt_size := DefaultSize; opt_withStats := false;
                opt_defaultLifetime := -1 (* no expiration *) |} os in
  match lru_New (opt_size o) with
  | None => None
  | Some inner =>
      Some {| cache := inner; opts := o; stats := {| Hits := 0; Misses := 0 |} |}
  end.

(** A process that built its cache with [New] at clock reading [t0]. *)
Definition boot (t0 : Time) (os : list Option) : option machine :=
  match New os with
  | None => None
  | Some c => Some {| cch := c; heap := []; clock := t0 |}
  end.

(** ** Reading *)

Definition getEntry (c : Cache) (key : K) : option addr * Cache :=
  let '(v, inner) := lru_Get (cache c) key in
  let st :=
    if opt_withStats (opts c) then
      match v with
      | Some _ => {| Hits := AddUint32 (Hits (stats c)) 1; Misses := Misses (stats c) |}
      | None => {| Hits := Hits (stats c); Misses := AddUint32 (Misses (stats c)) 1 |}
      end
    else stats c in
  (v, {| cache := inner; opts := opts c; stats := st |}).

Definition Expired (ce : entry) (now : Time) : bool :=
  negb (IsZero (expireAt ce)) && After now (expireAt ce).

(** The two return statements that end [getWithTimeout]. *)
Definition read_entry (ce : entry) : V * option error :=
  match err ce with
  | Some e => (zero, Some e)
  | None => (value ce, None)
  end.

(** What a call does, seen by a caller that runs alone: it returns, or it
    never does ([Block]: a receive on a channel nobody will close).
    [Fault] is the dereference of a pointer to no entry; the store never
    holds one (lemma [store_valid] below). *)
Inductive outcome :=
| Return (v : V) (e : option error)
| Block
| Fault.

(** [getWithTimeout] run alone: the outcome and the time spent waiting.
    With a non-nil lock on an open channel nobody else is there to close it:
    the receive never completes, and in the [select] the timer fires after
    [timeout].  A non-nil lock on a closed channel is a state only a reader
    that runs in the middle of the resolve closure can see; the receive is
    then ready at once.  The step semantics below has both branches of the
    [select]. *)
Definition getWithTimeout (sl : slot) (timeout : Duration) : outcome * Duration :=
  match lock (ent sl) with
  | None => (* nil lock means cache is ready *)
      (Return (read_entry (ent sl)).1 (read_entry (ent sl)).2, 0)
  | Some _ =>
      if closed sl then (Return (read_entry (ent sl)).1 (read_entry (ent sl)).2, 0)
      else if timeout <? 0 then (Block, 0)
      else (Return zero (Some ErrGetCacheTimeout), timeout)
  end.

(** [get] *)
Definition get (sl : slot) : outcome * Duration := getWithTimeout sl (-1).

Definition set_cch (m : machine) (c : Cache) : machine :=
  {| cch := c; heap := heap m; clock := clock m |}.

Definition advance (m : machine) (d : Duration) : machine :=
  {| cch := cch m; heap := heap m; clock := Add (clock m) d |}.

Definition GetWithTimeout (key : K) (timeout : Duration) (m : machine)
  : outcome * machine :=
  let '(entity, c) := getEntry (cch m) key in
  let m1 := set_cch m c in
  match entity with
  | None => (Return zero (Some ErrEntryNotFound), m1)
  | Some a =>
      match heap m !! a with
      | None => (Fault, m1)
      | Some sl =>
          if Expired (ent sl) (clock m) then (Return zero (Some ErrExpired), m1)
          else let '(r, waited) := getWithTimeout sl timeout in
               (r, advance m1 waited)
      end
  end.

Definition Get (key : K) (m : machine) : outcome * machine :=
  GetWithTimeout key (-1) m.

Definition Len (m : machine) : Z := lru_Len (cache (cch m)).

Definition Cache_Stats (m : machine) : Stats := stats (cch m).

(** ** Reserving and resolving *)

Definition ReserveWithLifetime (key : K) (lt : Duration) (m : machine)
  : ResolveFunc * machine :=
  let a := length (heap m) in
  let sl := {| ent := {| lock := Some Chan; value := zero; err := None; expireAt := 0 |};
               closed := false; mux := false; reserved := false; lifetime := lt |} in
  (a, {| cch := {| cache := lru_Add (cache (cch m)) key a;
                   opts := opts (cch m); stats := stats (cch m) |};
         heap := heap m ++ [sl];
         clock := clock m |}).

Definition Reserve (key : K) (m : machine) : ResolveFunc * machine :=
  ReserveWithLifetime key (opt_defaultLifetime (opts (cch m))) m.

(** The statements of the resolve closure, one function each. *)
Definition set_reserved (sl : slot) : slot :=
  {| ent := ent sl; closed := closed sl; mux := mux sl; reserved := true;
     lifetime := lifetime sl |}.

Definition set_mux (b : bool) (sl : slot) : slot :=
  {| ent := ent sl; closed := closed sl; mux := b; reserved := reserved sl;
     lifetime := lifetime sl |}.

Definition with_ent (sl : slot) (ce : entry) : slot :=
  {| ent := ce; closed := closed sl; mux := mux sl; reserved := reserved sl;
     lifetime := lifetime sl |}.

(** [entry.value, entry.err = entity, err] *)
Definition assign (entity : V) (e : option error) (sl : slot) : slot :=
  with_ent sl {| lock := lock (ent sl); value := entity; err := e;
                 expireAt := expireAt (ent sl) |}.

(** [if lifetime >= 0 { entry.expireAt = time.Now().Add(lifetime) }] *)
Definition stamp (now : Time) (sl : slot) : slot :=
  if 0 <=? lifetime sl then
    with_ent sl {| lock := lock (ent sl); value := value (ent sl); err := err (ent sl);
                   expireAt := Add now (lifetime sl) |}
  else sl.

(** [close(entry.lock)] *)
Definition close (sl : slot) : slot :=
  {| ent := ent sl; closed := true; mux := mux sl; reserved := reserved sl;
     lifetime := lifetime sl |}.

(** [entry.lock = nil] *)
Definition clear_lock (sl : slot) : slot :=
  with_ent sl {| lock := None; value := value (ent sl); err := err (ent sl);
                 expireAt := expireAt (ent sl) |}.

(** The closure run alone.  [Stuck] is [mux.Lock()] on a held mutex. *)
Inductive resolution :=
| Resolved (m : machine)
| Panicked (msg : string)
| Stuck
| Dangling.

Definition set_slot (m : machine) (a : addr) (sl : slot) : machine :=
  {| cch := cch m; heap := <[a := sl]> (heap m); clock := clock m |}.

Definition resolve (f : ResolveFunc) (entity : V) (e : option error) (m : machine)
  : resolution :=
  match heap m !! f with
  | None => Dangling
  | Some sl =>
      if mux sl then Stuck
      else if reserved sl then Panicked "already reserved"
      else
        Resolved (set_slot m f
          (set_mux false
            (clear_lock (close (stamp (clock m) (assign entity e
               (set_reserved (set_mux true sl))))))))
  end.
End Model.

Arguments entry : clear implicits.
Arguments slot : clear implicits.
Arguments Cache : clear implicits.
Arguments machine : clear implicits.
Arguments outcome : clear implicits.
Arguments resolution : clear implicits.

(** ** Programs of one caller

    A caller that runs alone performs a sequence of calls.  A call that
    never returns ends the program; a panic of the resolve closure is
    recovered by the caller ([mux] is released by the deferred [Unlock] and
    nothing else was written). *)

Section Sequential.
Context {K : Type} `{EqDecision K} {V : Type} `{Zero V}.

Inductive call :=
| CallGet (key : K)
| CallGetWithTimeout (key : K) (timeout : Duration)
| CallReserve (key : K)
| CallReserveWithLifetime (key : K) (lt : Duration)
| CallResolve (f : ResolveFunc) (entity : V) (e : option error)
| CallSleep (d : Duration).

Definition returned (r : outcome V * machine K V) : option (machine K V) :=
  match r.1 with
  | Return _ _ => Some r.2
  | Block | Fault => None
  end.

Definition exec (c : call) (m : machine K V) : option (machine K V) :=
  match c with
  | CallGet key => returned (Get key m)
  | CallGetWithTimeout key timeout => returned (GetWithTimeout key timeout m)
  | CallReserve key => Some (Reserve key m).2
  | CallReserveWithLifetime key lt => Some (ReserveWithLifetime key lt m).2
  | CallResolve f entity e =>
      match resolve f entity e m with
      | Resolved m' => Some m'
      | Panicked _ => Some m
      | Stuck | Dangling => None
      end
  | CallSleep d => Some (advance m (Z.max 0 d))
  end.

Fixpoint run (cs : list call) (m : machine K V) : option (machine K V) :=
  match cs with
  | [] => Some m
  | c :: cs' =>
      match exec c m with
      | Some m' => run cs' m'
      | None => None
      end
  end.

(** The calls that resolve [f], and the calls that reserve [key]. *)
Definition resolves (f : ResolveFunc) (c : call) : bool :=
  match c with
  | CallResolve g _ _ => bool_decide (g = f)
  | _ => false
  end.

Definition reserves (key : K) (c : call) : bool :=
  match c with
  | CallReserve k | CallReserveWithLifetime k _ => bool_decide (k = key)
  | _ => false
  end.
End Sequential.
Arguments call : clear implicits.

(** ** Concurrent callers

    Goroutines interleave at the statements of [GetWithTimeout],
    [getWithTimeout] and of the resolve closure.  The store has its own
    lock and the counters are atomic, so [getEntry] is one step, and so is
    [ReserveWithLifetime]: the entry it builds is private until [Add]
    publishes it.  Readers take no lock: every statement of the resolve
    closure is a step of its own, and the mutex of the closure only orders
    the calls of that closure.  Memory is taken to be sequentially
    consistent and a read or write of one field to be atomic. *)

Section Concurrent.
Context {K : Type} `{EqDecision K} {V : Type} `{Zero V}.

(** Where a call of [GetWithTimeout] stands. *)
Inductive get_pc :=
| GEntry                           (* about to call getEntry *)
| GExpired (a : addr)              (* about to test entity.Expired(time.Now()) *)
| GLock (a : addr)                 (* about to read ce.lock *)
| GRecv (a : addr)                 (* at the receive from lock *)
| GSelect (a : addr) (deadline : Time) (* in the select, timer armed *)
| GRead (a : addr)                 (* past the wait, about to read ce.err and ce.value *)
| GFail (e : error)                (* returned the zero value, e *)
| GGot (a : addr) (v : V) (e : option error). (* returned from the end of getWithTimeout *)

(** Where a call of the resolve closure stands. *)
Inductive resolve_pc :=
| RLock          (* about to lock mux *)
| RGuard         (* about to test reserved *)
| RSet           (* about to set reserved *)
| RAssign        (* about to assign value and err *)
| RStamp         (* about to set expireAt *)
| RClose         (* about to close the channel *)
| RClear         (* about to set lock to nil *)
| RUnlock        (* about to return: the deferred Unlock *)
| RDone          (* returned *)
| RPanic.        (* panicked, mux released by the deferred Unlock *)

Inductive thread :=
| TGet (key : K) (timeout : Duration) (pc : get_pc)
| TResolve (f : ResolveFunc) (entity : V) (e : option error) (pc : resolve_pc).

Record cstate := mkCState { mach : machine K V; threads : list thread }.

(** The mutex is held from [RGuard] to [RUnlock]; from [RAssign] on the
    call has passed the guard and set [reserved]. *)
Definition holding (pc : resolve_pc) : bool :=
  match pc with
  | RGuard | RSet | RAssign | RStamp | RClose | RClear | RUnlock => true
  | RLock | RDone | RPanic => false
  end.

Definition won (pc : resolve_pc) : bool :=
  match pc with
  | RAssign | RStamp | RClose | RClear | RUnlock | RDone => true
  | RLock | RGuard | RSet | RPanic => false
  end.

(** One statement of the resolve closure, on the slot it closes over. *)
Definition resolve_step (now : Time) (entity : V) (e : option error)
    (pc : resolve_pc) (sl : slot V) : option (slot V * resolve_pc) :=
  match pc with
  | RLock => if mux sl then None else Some (set_mux true sl, RGuard)
  | RGuard => if reserved sl then Some (set_mux false sl, RPanic) else Some (sl, RSet)
  | RSet => Some (set_reserved sl, RAssign)
  | RAssign => Some (assign entity e sl, RStamp)
  | RStamp => Some (stamp now sl, RClose)
  | RClose => Some (close sl, RClear)
  | RClear => Some (clear_lock sl, RUnlock)
  | RUnlock => Some (set_mux false sl, RDone)
  | RDone | RPanic => None
  end.

(** One step of a goroutine, when it can take one. *)
Definition thread_step (m : machine K V) (t : thread)
  : option (machine K V * thread) :=
  match t with
  | TGet key timeout pc =>
      match pc with
      | GEntry =>
          let '(entity, c) := getEntry (cch m) key in
          Some (set_cch m c,
                TGet key timeout
                  match entity with
                  | None => GFail ErrEntryNotFound
                  | Some a => GExpired a
                  end)
      | GExpired a =>
          sl ← heap m !! a;
          Some (m, TGet key timeout
                     (if Expired (ent sl) (clock m) then GFail ErrExpired else GLock a))
      | GLock a =>
          sl ← heap m !! a;
          Some (m, TGet key timeout
                     match lock (ent sl) with
                     | None => GRead a
                     | Some _ =>
                         if timeout <? 0 then GRecv a
                         else GSelect a (Add (clock m) timeout)
                     end)
      | GRecv a =>
          sl ← heap m !! a;
          if closed sl then Some (m, TGet key timeout (GRead a)) else None
      | GSelect a _ =>
          sl ← heap m !! a;
          if closed sl then Some (m, TGet key timeout (GRead a)) else None
      | GRead a =>
          sl ← heap m !! a;
          Some (m, TGet key timeout
                     (GGot a (read_entry (ent sl)).1 (read_entry (ent sl)).2))
      | GFail _ | GGot _ _ _ => None
      end
  | TResolve f entity e pc =>
      sl ← heap m !! f;
      r ← resolve_step (clock m) entity e pc sl;
      Some (set_slot m f r.1, TResolve f entity e r.2)
  end.

(** The timer branch of the [select]. *)
Definition thread_timeout (m : machine K V) (t : thread) : option thread :=
  match t with
  | TGet key timeout (GSelect a deadline) =>
      if deadline <=? clock m then Some (TGet key timeout (GFail ErrGetCacheTimeout))
      else None
  | _ => None
  end.

(** What can happen next: time passes, somebody calls [GetWithTimeout],
    [ReserveWithLifetime] or a resolve closure, a goroutine takes a step,
    or the timer of a [select] fires. *)
Inductive action :=
| Tick (d : Duration)
| CallGWT (key : K) (timeout : Duration)
| CallRWL (key : K) (lt : Duration)
| CallRes (f : ResolveFunc) (entity : V) (e : option error)
| Run (i : nat)
| Timer (i : nat).

Definition fire (act : action) (s : cstate) : option cstate :=
  match act with
  | Tick d =>
      if 0 <? d then Some {| mach := advance (mach s) d; threads := threads s |}
      else None
  | CallGWT key timeout =>
      Some {| mach := mach s; threads := threads s ++ [TGet key timeout GEntry] |}
  | CallRWL key lt =>
      Some {| mach := (ReserveWithLifetime key lt (mach s)).2; threads := threads s |}
  | CallRes f entity e =>
      match heap (mach s) !! f with
      | Some _ =>
          Some {| mach := mach s; threads := threads s ++ [TResolve f entity e RLock] |}
      | None => None
      end
  | Run i =>
      t ← threads s !! i;
      r ← thread_step (mach s) t;
      Some {| mach := r.1; threads := <[i := r.2]> (threads s) |}
  | Timer i =>
      t ← threads s !! i;
      t' ← thread_timeout (mach s) t;
      Some {| mach := mach s; threads := <[i := t']> (threads s) |}
  end.

Fixpoint fires (acts : list action) (s : cstate) : option cstate :=
  match acts with
  | [] => Some s
  | act :: acts' =>
      match fire act s with
      | Some s' => fires acts' s'
      | None => None
      end
  end.

Definition start (m : machine K V) : cstate := {| mach := m; threads := [] |}.

(** A slot nobody has resolved or begun to resolve. *)
Definition pending (s : cstate) (a : addr) : Prop :=
  exists sl, heap (mach s) !! a = Some sl /\ reserved sl = false.

(** All callers that wait on one key together get one result: the
    property of single flight per key. *)
Definition waiters_agree_per_key (s0 : cstate) : Prop :=
  forall acts1 acts2 s1 s2 key i j a b v e v' e',
    fires acts1 s0 = Some s1 ->
    fires acts2 s1 = Some s2 ->
    threads s1 !! i = Some (TGet key (-1) (GRecv a)) -> pending s1 a ->
    threads s1 !! j = Some (TGet key (-1) (GRecv b)) -> pending s1 b ->
    threads s2 !! i = Some (TGet key (-1) (GGot a v e)) ->
    threads s2 !! j = Some (TGet key (-1) (GGot b v' e')) ->
    (v, e) = (v', e').
End Concurrent.
Arguments get_pc : clear implicits.
Arguments resolve_pc : clear implicits.
Arguments thread : clear implicits.
Arguments cstate : clear implicits.
Arguments action : clear implicits.

(** ** Scenarios

    The statement [cache.Reserve(key)(v, nil)] of the tests, and the
    sequence of [TestWithSize]. *)

Section Scenarios.
Context {K : Type} `{EqDecision K} {V : Type} `{Zero V}.

Definition reserve_resolve (key : K) (v : V) (m : machine K V)
  : option (machine K V) :=
  let '(f, m1) := Reserve key m in
  match resolve f v None m1 with
  | Resolved m2 => Some m2
  | _ => None
  end.
End Scenarios.

Definition with_size_five (t0 : Time) : option (machine string string) :=
  m ← boot t0 [WithSize 5];
  m ← reserve_resolve "1" "value1" m;
  m ← reserve_resolve "2" "value2" m;
  m ← reserve_resolve "3" "value3" m;
  m ← reserve_resolve "4" "value4" m;
  reserve_resolve "5" "value5" m.

(** The race of two callers that look a key up before they reserve it.
    Goroutines 0 and 1 call [Get] on ["k"] and are both told
    [ErrEntryNotFound]; each of the two callers then reserves ["k"] (slots 0
    and 1).  Goroutine 2 waits on slot 0, goroutine 3, which came after the
    second reservation, on slot 1. *)
Definition two_reservations : list (action string string) :=
  [ CallGWT "k" (-1); CallGWT "k" (-1); Run 0%nat; Run 1%nat;
    CallRWL "k" (-1); CallGWT "k" (-1); Run 2%nat; Run 2%nat; Run 2%nat;
    CallRWL "k" (-1); CallGWT "k" (-1); Run 3%nat; Run 3%nat; Run 3%nat ].

(** Both producers resolve (goroutines 4 and 5), then the waiters run. *)
Definition two_resolutions : list (action string string) :=
  [ CallRes 0%nat "v1" None;
    Run 4%nat; Run 4%nat; Run 4%nat; Run 4%nat;
    Run 4%nat; Run 4%nat; Run 4%nat; Run 4%nat;
    CallRes 1%nat "v2" None;
    Run 5%nat; Run 5%nat; Run 5%nat; Run 5%nat;
    Run 5%nat; Run 5%nat; Run 5%nat; Run 5%nat;
    Run 2%nat; Run 2%nat; Run 3%nat; Run 3%nat ].

(** One reservation, two waiters, one resolution interleaved with them. *)
Definition one_reservation : list (action string string) :=
  [ CallRWL "k" 30; CallGWT "k" (-1); CallGWT "k" (-1);
    Run 0%nat; Run 0%nat; Run 0%nat;
    CallRes 0%nat "v" None; Run 2%nat; Run 2%nat;
    Run 1%nat; Run 1%nat; Run 1%nat;
    Run 2%nat; Run 2%nat; Run 2%nat; Run 2%nat; Run 0%nat; Run 2%nat; Run 2%nat;
    Run 0%nat; Run 1%nat; Run 1%nat ].


(** Small programs on string keys and values, used to exercise the
    theorems. *)

(** The machine a call left behind. *)
Definition after {K V : Type} (m : machine K V) (r : option (machine K V))
  : machine K V := default m r.

Definition fresh (os : list Option) : machine string string :=
  {| cch := {| cache := {| lru_size := 1024; lru_items := [] |};
               opts := foldl (fun acc w => Apply w acc)
                         {| opt_size := 1024; opt_withStats := false;
                            opt_defaultLifetime := -1 |} os;
               stats := {| Hits := 0; Misses := 0 |} |};
     heap := []; clock := 1 |}.

(** ["k"] reserved with lifetime [lt] at clock 1 (its closure is slot 0),
    then resolved. *)
Definition reserved_k (os : list Option) (lt : Duration) : machine string string :=
  (ReserveWithLifetime "k" lt (fresh os)).2.

Definition resolved_k (os : list Option) (lt : Duration) (e : option error)
  : machine string string :=
  after (fresh os) (exec (CallResolve 0%nat "v" e) (reserved_k os lt)).

Definition slept (d : Duration) (m : machine string string) : machine string string :=
  after m (run [CallSleep d] m).

(** ** Predicates used in the statements *)

Section Predicates.
Context {K : Type} `{EqDecision K} {V : Type} `{Zero V}.

(** A slot whose resolution is complete: the guard is set and the mutex
    released. *)
Definition settled (sl : slot V) : Prop :=
  reserved sl = true /\ mux sl = false.

(** Between calls of a lone caller every slot is either as the
    reservation made it or as its resolution left it, and the store points
    to live entries. *)
Definition pristine (sl : slot V) : Prop :=
  lock (ent sl) = Some Chan /\ closed sl = false /\
  expireAt (ent sl) = 0 /\ mux sl = false.

Definition finished (sl : slot V) : Prop :=
  lock (ent sl) = None /\ closed sl = true /\ mux sl = false.

Definition quiet (sl : slot V) : Prop :=
  if reserved sl then finished sl else pristine sl.

Definition wf (m : machine K V) : Prop :=
  (forall a sl, heap m !! a = Some sl -> quiet sl) /\
  (forall k a, (k, a) ∈ lru_items (cache (cch m)) -> (a < length (heap m))%nat).

(** No call of the program resolves [f]; no call reserves [key]. *)
Definition leaves_unresolved (f : ResolveFunc) (cs : list (call K V)) : Prop :=
  Forall (fun c => resolves f c = false) cs.

Definition never_reserves (key : K) (cs : list (call K V)) : Prop :=
  Forall (fun c => reserves key c = false) cs.

(** The slot stored under [key], if any. *)
Definition stored (m : machine K V) (key : K) : option addr :=
  lru_Peek (cache (cch m)) key.

(** The last [WithSize] of an option list decides the capacity. *)
Definition sets_size (w : Option) : bool :=
  match w with
  | WithSize _ => true
  | _ => false
  end.

(** The result a caller sees for an entry resolved with [(entity, e)]. *)
Definition delivered (entity : V) (e : option error) : outcome V :=
  match e with
  | Some e' => Return zero (Some e')
  | None => Return entity None
  end.
End Predicates.

(** ** The invariant of the interleaving semantics *)

Section Invariant.
Context {K : Type} `{EqDecision K} {V : Type} `{Zero V}.

(** What a call of the resolve closure that stands at [pc] knows about
    its slot. *)
Definition resolve_fact (entity : V) (e : option error) (pc : resolve_pc)
    (sl : slot V) : Prop :=
  match pc with
  | RLock => True
  | RGuard => mux sl = true
  | RSet => mux sl = true /\ reserved sl = false
  | RAssign => mux sl = true /\ reserved sl = true /\ closed sl = false
  | RStamp | RClose =>
      mux sl = true /\ reserved sl = true /\ closed sl = false /\
      value (ent sl) = entity /\ err (ent sl) = e
  | RClear | RUnlock =>
      mux sl = true /\ reserved sl = true /\ closed sl = true /\
      value (ent sl) = entity /\ err (ent sl) = e
  | RDone =>
      reserved sl = true /\ closed sl = true /\
      value (ent sl) = entity /\ err (ent sl) = e
  | RPanic => reserved sl = true
  end.

(** What a call of [GetWithTimeout] knows about the slot it holds. *)
Definition get_fact (pc : get_pc V) (sl : slot V) : Prop :=
  match pc with
  | GRead _ => closed sl = true
  | GGot _ v e => closed sl = true /\ read_entry (ent sl) = (v, e)
  | _ => True
  end.

Definition get_addr (pc : get_pc V) : option addr :=
  match pc with
  | GEntry | GFail _ => None
  | GExpired a | GLock a | GRecv a | GSelect a _ | GRead a | GGot a _ _ => Some a
  end.

Definition thread_addr (t : thread K V) : option addr :=
  match t with
  | TGet _ _ pc => get_addr pc
  | TResolve f _ _ _ => Some f
  end.

Definition thread_fact (t : thread K V) (sl : slot V) : Prop :=
  match t with
  | TGet _ _ pc => get_fact pc sl
  | TResolve _ entity e pc => resolve_fact entity e pc sl
  end.

Definition thread_ok (hp : list (slot V)) (t : thread K V) : Prop :=
  match thread_addr t with
  | None => True
  | Some a => exists sl, hp !! a = Some sl /\ thread_fact t sl
  end.

(** The goroutine holds the mutex of slot [f]; it is the call that
    passed the guard of slot [f]. *)
Definition holds (t : thread K V) (f : addr) : Prop :=
  match t with
  | TResolve g _ _ pc => g = f /\ holding pc = true
  | TGet _ _ _ => False
  end.

Definition winner (t : thread K V) (f : addr) : Prop :=
  match t with
  | TResolve g _ _ pc => g = f /\ won pc = true
  | TGet _ _ _ => False
  end.

Definition slot_ok (sl : slot V) : Prop :=
  (reserved sl = false ->
     closed sl = false /\ lock (ent sl) = Some Chan /\ expireAt (ent sl) = 0) /\
  (lock (ent sl) = None -> closed sl = true).

(** A slot only moves forward: a closed channel stays closed and the
    value and error behind it stay what they are; a set guard stays set. *)
Definition later (sl sl' : slot V) : Prop :=
  (closed sl = true ->
     closed sl' = true /\ value (ent sl') = value (ent sl) /\
     err (ent sl') = err (ent sl)) /\
  (reserved sl = true -> reserved sl' = true).

Record Inv (s : cstate K V) : Prop := mkInv {
  inv_slots : forall a sl, heap (mach s) !! a = Some sl -> slot_ok sl;
  inv_threads : forall i t, threads s !! i = Some t -> thread_ok (heap (mach s)) t;
  inv_holder : forall i j ti tj f,
    threads s !! i = Some ti -> threads s !! j = Some tj ->
    holds ti f -> holds tj f -> i = j;
  inv_winner : forall i j ti tj f,
    threads s !! i = Some ti -> threads s !! j = Some tj ->
    winner ti f -> winner tj f -> i = j;
  inv_resolved : forall a sl,
    heap (mach s) !! a = Some sl -> reserved sl = true ->
    exists j t, threads s !! j = Some t /\ winner t a;
  inv_store : forall k a,
    (k, a) ∈ lru_items (cache (cch (mach s))) -> (a < length (heap (mach s)))%nat
}.

(** Actions that reserve [key]. *)
Definition reserves_key (key : K) (act : action K V) : bool :=
  match act with
  | CallRWL k _ => bool_decide (k = key)
  | _ => false
  end.

(** No reservation of [key] has been made: the store has no slot for it
    and no reader of [key] holds one. *)
Definition key_unreserved (s : cstate K V) (key : K) : Prop :=
  lru_Peek (cache (cch (mach s))) key = None /\
  forall i timeout pc,
    threads s !! i = Some (TGet key timeout pc) -> get_addr pc = None.

(** The only slot the store or a reader holds for [key] is [a0]. *)
Definition key_bound (s : cstate K V) (key : K) (a0 : addr) : Prop :=
  (forall a, lru_Peek (cache (cch (mach s))) key = Some a -> a = a0) /\
  forall i timeout pc a,
    threads s !! i = Some (TGet key timeout pc) -> get_addr pc = Some a -> a = a0.

(** The program point of a call that has returned [(v, e)]. *)
Definition returns (pc : get_pc V) (v : V) (e : option error) : Prop :=
  match pc with
  | GFail e' => v = zero /\ e = Some e'
  | GGot _ v' e' => v = v' /\ e = e'
  | _ => False
  end.
End Invariant.

(** ** Configuration, the bound of the store, counting reads *)

(** What a list of options configures: the last size and the last default
    lifetime given, and statistics as soon as one option asks for them. *)
Fixpoint size_of (os : list Option) (d : Z) : Z :=
  match os with
  | [] => d
  | WithSize n :: os' => size_of os' n
  | _ :: os' => size_of os' d
  end.

Fixpoint lifetime_of (os : list Option) (d : Duration) : Duration :=
  match os with
  | [] => d
  | WithDefaultLifetime l :: os' => lifetime_of os' l
  | _ :: os' => lifetime_of os' d
  end.

Fixpoint stats_of (os : list Option) (d : bool) : bool :=
  match os with
  | [] => d
  | WithStats :: os' => stats_of os' true
  | _ :: os' => stats_of os' d
  end.

Section MoreDefinitions.
Context {K : Type} `{EqDecision K} {V : Type} `{Zero V}.

(** The store has a positive capacity, holds no more slots than that, and
    holds one slot per key. *)
Definition store_ok (c : LRU K addr) : Prop :=
  0 < lru_size c /\ lru_Len c <= lru_size c /\ NoDup (lru_items c).*1.

(** The calls of a program that look a key up. *)
Definition reads (c : call K V) : bool :=
  match c with
  | CallGet _ | CallGetWithTimeout _ _ => true
  | _ => false
  end.

Fixpoint count_reads (cs : list (call K V)) : Z :=
  match cs with
  | [] => 0
  | c :: cs' => (if reads c then 1 else 0) + count_reads cs'
  end.

(** A slot whose mutex is held has a goroutine in its closure. *)
Definition mux_owned (s : cstate K V) : Prop :=
  forall f sl, heap (mach s) !! f = Some sl -> mux sl = true ->
  exists j t, threads s !! j = Some t /\ holds t f.

(** ** The first version of the cache

    In the first version of [kocache.go] the resolve closure has neither
    mutex nor guard and [getWithTimeout] does not test the lock for nil (the
    closure never clears it).  Slots are as above; this closure leaves the
    fields [mux] and [reserved] alone. *)

(** How a call of the closure ends, and the machine it leaves behind. *)
Inductive resolution_v1 :=
| Resolved_v1 (m : machine K V)
| Panicked_v1 (msg : string) (m : machine K V).

(** [close] of Go: a panic on a nil or a closed channel. *)
Definition resolve_v1 (f : ResolveFunc) (entity : V) (e : option error)
    (m : machine K V) : option resolution_v1 :=
  sl ← heap m !! f;
  let sl' := stamp (clock m) (assign entity e sl) in
  Some match lock (ent sl') with
       | None => Panicked_v1 "close of nil channel" (set_slot m f sl')
       | Some _ =>
           if closed sl' then Panicked_v1 "close of closed channel" (set_slot m f sl')
           else Resolved_v1 (set_slot m f (close sl'))
       end.

(** The receive from [ce.lock] is ready when the channel is closed; a nil
    channel is never ready. *)
Definition getWithTimeout_v1 (sl : slot V) (timeout : Duration)
  : outcome V * Duration :=
  let ready := match lock (ent sl) with
               | Some _ => closed sl
               | None => false
               end in
  if ready then (Return (read_entry (ent sl)).1 (read_entry (ent sl)).2, 0)
  else if timeout <? 0 then (Block, 0)
  else (Return zero (Some ErrGetCacheTimeout), timeout).

Definition GetWithTimeout_v1 (key : K) (timeout : Duration) (m : machine K V)
  : outcome V * machine K V :=
  let '(entity, c) := getEntry (cch m) key in
  let m1 := set_cch m c in
  match entity with
  | None => (Return zero (Some ErrEntryNotFound), m1)
  | Some a =>
      match heap m !! a with
      | None => (Fault, m1)
      | Some sl =>
          if Expired (ent sl) (clock m) then (Return zero (Some ErrExpired), m1)
          else let '(r, waited) := getWithTimeout_v1 sl timeout in
               (r, advance m1 waited)
      end
  end.
End MoreDefinitions.
Arguments resolution_v1 : clear implicits.

(** More small programs on string keys and values. *)

(** A fresh cache of capacity [n], at clock 1. *)
Definition sized (n : Z) : machine string string :=
  after (fresh []) (boot 1 [WithSize n]).

(** The machine and the goroutines concurrent actions left behind. *)
Definition reached (acts : list (action string string)) (s : cstate string string)
  : cstate string string := default s (fires acts s).

(** A call of the closure of ["k"] that has come to [close(entry.lock)]. *)
Definition closure_at_close : list (action string string) :=
  [ CallRWL "k" 30; CallRes 0%nat "v" None;
    Run 0%nat; Run 0%nat; Run 0%nat; Run 0%nat; Run 0%nat ].

(** A caller that looks ["k"] up before it is reserved; then, after the
    one reservation, a waiter (goroutine 1) and the producer (goroutine 2). *)
Definition lookup_before_reservation : list (action string string) :=
  [ CallGWT "k" (-1); Run 0%nat ].

Definition one_producer : list (action string string) :=
  [ CallGWT "k" (-1); Run 1%nat; Run 1%nat; Run 1%nat;
    CallRes 0%nat "v" None;
    Run 2%nat; Run 2%nat; Run 2%nat; Run 2%nat;
    Run 2%nat; Run 2%nat; Run 2%nat; Run 2%nat;
    Run 1%nat; Run 1%nat ].
(** * Properties *)

(** ** The store *)

Section StoreFacts.
Context {K : Type} `{EqDecision K} {A : Type}.
Implicit Types (l : list (K * A)) (c : LRU K A).

Lemma assoc_Some_elem key l v : assoc key l = Some v -> (key, v) ∈ l.
Proof.
  induction l as [|[k w] l IH]; simpl; [done|].
  destruct (decide (k = key)) as [->|]; intros Hv.
  - injection Hv as ->. apply list_elem_of_here.
  - apply list_elem_of_further; auto.
Qed.

Lemma assoc_None_keys key l : assoc key l = None <-> key ∉ l.*1.
Proof.
  induction l as [|[k w] l IH]; simpl.
  - split; [intros _; apply not_elem_of_nil|done].
  - rewrite not_elem_of_cons. destruct (decide (k = key)) as [->|Hne]; simpl.
    + split; [done|]. intros [? _]; done.
    + rewrite IH. split; [intros ?; split; [congruence|done] | intros [_ ?]; done].
Qed.

Lemma remove_key_subset key l x : x ∈ remove_key key l -> x ∈ l.
Proof.
  induction l as [|[k w] l IH]; simpl; [done|].
  destruct (decide (k = key)).
  - intros ?. apply list_elem_of_further; auto.
  - rewrite !elem_of_cons. intros [->|?]; auto.
Qed.

Lemma assoc_remove_key key l : assoc key (remove_key key l) = None.
Proof.
  induction l as [|[k w] l IH]; simpl; [done|].
  destruct (decide (k = key)); [done|]. simpl.
  destruct (decide (k = key)); done.
Qed.

Lemma assoc_remove_key_ne key key' l :
  key <> key' -> assoc key' (remove_key key l) = assoc key' l.
Proof.
  intros Hne. induction l as [|[k w] l IH]; simpl; [done|].
  destruct (decide (k = key)) as [->|]; simpl.
  - destruct (decide (key = key')); [done|]. apply IH.
  - destruct (decide (k = key')); [done|]. apply IH.
Qed.

Lemma remove_oldest_subset l x : x ∈ remove_oldest l -> x ∈ l.
Proof. unfold remove_oldest. intros Hx. eapply subseteq_take, Hx. Qed.

Lemma lru_Add_items c key v x :
  x ∈ lru_items (lru_Add c key v) -> x = (key, v) \/ x ∈ lru_items c.
Proof.
  unfold lru_Add. destruct (assoc key (lru_items c)); simpl.
  - rewrite elem_of_cons. intros [->|Hx]; [by left|].
    right. by eapply remove_key_subset.
  - destruct (lru_size c <? _).
    + intros Hx%remove_oldest_subset. by apply elem_of_cons in Hx.
    + intros Hx. by apply elem_of_cons in Hx.
Qed.

Lemma lru_Get_items c key x :
  x ∈ lru_items (lru_Get c key).2 -> x ∈ lru_items c.
Proof.
  unfold lru_Get. destruct (assoc key (lru_items c)) as [v|] eqn:Hv; simpl; [|done].
  rewrite elem_of_cons. intros [->|Hx].
  - by apply assoc_Some_elem.
  - by eapply remove_key_subset.
Qed.

Lemma lru_Get_fst c key : (lru_Get c key).1 = lru_Peek c key.
Proof. unfold lru_Get, lru_Peek. by destruct (assoc key (lru_items c)). Qed.

(** A lookup that finds the key leaves it in the store. *)
Lemma lru_Get_keeps c key v :
  lru_Peek c key = Some v -> lru_Peek (lru_Get c key).2 key = Some v.
Proof.
  unfold lru_Get, lru_Peek. intros ->. simpl. by rewrite decide_True.
Qed.

Lemma assoc_take key l n v : assoc key (take n l) = Some v -> assoc key l = Some v.
Proof.
  revert n. induction l as [|[k w] l IH]; intros [|n]; simpl; try done.
  destruct (decide (k = key)); [done|]. apply IH.
Qed.

(** Looking up one key does not change what is stored under any key. *)
Lemma lru_Get_peek c key key' :
  lru_Peek (lru_Get c key').2 key = lru_Peek c key.
Proof.
  unfold lru_Get, lru_Peek. destruct (assoc key' (lru_items c)) as [v|] eqn:Hv; simpl; [|done].
  destruct (decide (key' = key)) as [->|Hne]; [done|].
  by apply assoc_remove_key_ne.
Qed.

(** Adding another key stores nothing new under this one. *)
Lemma lru_Add_peek_ne c key key' v a :
  key' <> key ->
  lru_Peek (lru_Add c key' v) key = Some a -> lru_Peek c key = Some a.
Proof.
  intros Hne. unfold lru_Add, lru_Peek.
  destruct (assoc key' (lru_items c)) as [w|] eqn:Hw; simpl.
  - rewrite decide_False by done. by rewrite assoc_remove_key_ne.
  - destruct (lru_size c <? _).
    + unfold remove_oldest. intros Ha%assoc_take. simpl in Ha.
      by rewrite decide_False in Ha.
    + simpl. by rewrite decide_False.
Qed.

Lemma lru_Add_peek_eq c key v a :
  lru_Peek (lru_Add c key v) key = Some a -> a = v.
Proof.
  unfold lru_Add, lru_Peek.
  destruct (assoc key (lru_items c)) as [w|] eqn:Hw; simpl.
  - rewrite decide_True by done. congruence.
  - destruct (lru_size c <? _).
    + unfold remove_oldest. intros Ha%assoc_take. simpl in Ha.
      rewrite decide_True in Ha by done. congruence.
    + simpl. rewrite decide_True by done. congruence.
Qed.

Lemma lru_Add_peek c key v : lru_size c > 0 -> lru_Peek (lru_Add c key v) key = Some v.
Proof.
  intros Hsz. unfold lru_Add, lru_Peek.
  destruct (assoc key (lru_items c)) as [w|] eqn:Hw; simpl.
  - by rewrite decide_True.
  - destruct (Z.ltb_spec (lru_size c) (Z.of_nat (S (length (lru_items c))))).
    + unfold remove_oldest. simpl. rewrite Nat.sub_0_r.
      destruct (lru_items c) as [|x l] eqn:Hl; simpl in *; [lia|].
      by rewrite decide_True.
    + simpl. by rewrite decide_True.
Qed.
End StoreFacts.

(** ** One caller *)

Section SequentialFacts.
Context {K : Type} `{EqDecision K} {V : Type} `{Zero V}.
Implicit Types (m : machine K V) (sl : slot V) (c : call K V)
  (cs : list (call K V)) (key : K).

Lemma getEntry_fst (cc : Cache K) key : (getEntry cc key).1 = lru_Peek (cache cc) key.
Proof.
  unfold getEntry. rewrite <- lru_Get_fst. by destruct (lru_Get (cache cc) key).
Qed.

Lemma getEntry_cache (cc : Cache K) key :
  cache (getEntry cc key).2 = (lru_Get (cache cc) key).2.
Proof. unfold getEntry. by destruct (lru_Get (cache cc) key). Qed.

Lemma getEntry_opts (cc : Cache K) key : opts (getEntry cc key).2 = opts cc.
Proof. unfold getEntry. by destruct (lru_Get (cache cc) key). Qed.

Lemma getWithTimeout_waited sl timeout : 0 <= (getWithTimeout sl timeout).2.
Proof. unfold getWithTimeout. repeat case_match; simpl; lia. Qed.

Lemma GetWithTimeout_heap key timeout m :
  heap (GetWithTimeout key timeout m).2 = heap m.
Proof.
  unfold GetWithTimeout. destruct (getEntry (cch m) key) as [[a|] cc]; [|done].
  destruct (heap m !! a) as [sl|]; [|done].
  destruct (Expired _ _); [done|]. by destruct (getWithTimeout sl timeout).
Qed.

Lemma GetWithTimeout_clock key timeout m :
  clock m <= clock (GetWithTimeout key timeout m).2.
Proof.
  unfold GetWithTimeout. destruct (getEntry (cch m) key) as [[a|] cc]; simpl; [|lia].
  destruct (heap m !! a) as [sl|]; simpl; [|lia].
  destruct (Expired _ _); simpl; [lia|].
  pose proof (getWithTimeout_waited sl timeout).
  destruct (getWithTimeout sl timeout); simpl in *. unfold Add. lia.
Qed.

Lemma GetWithTimeout_opts key timeout m :
  opts (cch (GetWithTimeout key timeout m).2) = opts (cch m).
Proof.
  unfold GetWithTimeout. pose proof (getEntry_opts (cch m) key) as Ho.
  destruct (getEntry (cch m) key) as [[a|] cc]; simpl in *; [|done].
  destruct (heap m !! a) as [sl|]; [|done].
  destruct (Expired _ _); [done|]. by destruct (getWithTimeout sl timeout).
Qed.

Lemma returned_Some (r : outcome V * machine K V) m' : returned r = Some m' -> m' = r.2.
Proof. unfold returned. destruct r.1; congruence. Qed.

(** What a successful resolution writes. *)
Lemma resolve_Resolved f entity e m m1 :
  resolve f entity e m = Resolved m1 ->
  exists sl,
    heap m !! f = Some sl /\ mux sl = false /\ reserved sl = false /\
    clock m1 = clock m /\ cch m1 = cch m /\
    heap m1 = <[f := set_mux false
                        (clear_lock (close (stamp (clock m) (assign entity e
                           (set_reserved (set_mux true sl))))))]> (heap m).
Proof.
  unfold resolve. destruct (heap m !! f) as [sl|] eqn:Hf; [|done].
  destruct (mux sl) eqn:Hm; [done|]. destruct (reserved sl) eqn:Hr; [done|].
  intros [= <-]. exists sl. done.
Qed.

Lemma resolve_slot f entity e m m1 :
  resolve f entity e m = Resolved m1 ->
  exists sl sl1,
    heap m !! f = Some sl /\ reserved sl = false /\
    heap m1 !! f = Some sl1 /\ settled sl1 /\
    lock (ent sl1) = None /\ closed sl1 = true /\
    value (ent sl1) = entity /\ err (ent sl1) = e /\
    lifetime sl1 = lifetime sl /\
    expireAt (ent sl1) =
      if 0 <=? lifetime sl then Add (clock m) (lifetime sl) else expireAt (ent sl).
Proof.
  intros (sl & Hf & Hm & Hr & _ & _ & Hh)%resolve_Resolved.
  exists sl. eexists. split; [done|]. split; [done|].
  rewrite Hh. split.
  { apply list_lookup_insert_eq. by eapply lookup_lt_Some. }
  unfold settled, stamp, assign, set_reserved, set_mux, clear_lock, close, with_ent.
  simpl. destruct (0 <=? lifetime sl); simpl; done.
Qed.

(** A settled slot is never written again, and a slot is written only
    by its own resolve closure. *)
Lemma exec_keeps c m m' a sl :
  exec c m = Some m' ->
  heap m !! a = Some sl ->
  settled sl \/ resolves a c = false ->
  heap m' !! a = Some sl.
Proof.
  intros Hc Ha Hs. destruct c as [key|key t|key|key lt|g entity e|d]; simpl in Hc.
  - apply returned_Some in Hc as ->. unfold Get. by rewrite GetWithTimeout_heap.
  - apply returned_Some in Hc as ->. by rewrite GetWithTimeout_heap.
  - injection Hc as <-. simpl. by apply lookup_app_l_Some.
  - injection Hc as <-. simpl. by apply lookup_app_l_Some.
  - destruct (resolve g entity e m) as [m1| | |] eqn:Hres; try done.
    + injection Hc as <-.
      apply resolve_Resolved in Hres as (sl' & Hg & Hm & Hr & _ & _ & ->).
      destruct (decide (g = a)) as [->|Hne].
      * exfalso. rewrite Ha in Hg. injection Hg as <-.
        destruct Hs as [[Hs _]|Hs]; [congruence|].
        simpl in Hs. by rewrite bool_decide_eq_false in Hs.
      * by rewrite list_lookup_insert_ne.
    + by injection Hc as <-.
  - by injection Hc as <-.
Qed.

Lemma run_keeps cs m m' a sl :
  run cs m = Some m' ->
  heap m !! a = Some sl ->
  settled sl \/ leaves_unresolved a cs ->
  heap m' !! a = Some sl.
Proof.
  revert m. induction cs as [|c cs IH]; intros m Hrun Ha Hs; simpl in Hrun.
  - by injection Hrun as <-.
  - destruct (exec c m) as [m1|] eqn:Hc; [|done].
    apply (IH m1 Hrun).
    + eapply exec_keeps; [done..|].
      destruct Hs as [?|Hs]; [by left|right]. by inversion Hs.
    + destruct Hs as [?|Hs]; [by left|right]. by inversion Hs.
Qed.

Lemma exec_clock c m m' : exec c m = Some m' -> clock m <= clock m'.
Proof.
  destruct c as [key|key t|key|key lt|g entity e|d]; simpl; intros Hc.
  - apply returned_Some in Hc as ->. apply GetWithTimeout_clock.
  - apply returned_Some in Hc as ->. apply GetWithTimeout_clock.
  - injection Hc as <-. simpl. lia.
  - injection Hc as <-. simpl. lia.
  - destruct (resolve g entity e m) as [m1| | |] eqn:Hres; try done.
    + injection Hc as <-.
      apply resolve_Resolved in Hres as (_ & _ & _ & _ & -> & _). lia.
    + injection Hc as <-. lia.
  - injection Hc as <-. simpl. unfold Add. lia.
Qed.

Lemma run_clock cs m m' : run cs m = Some m' -> clock m <= clock m'.
Proof.
  revert m. induction cs as [|c cs IH]; intros m Hrun; simpl in Hrun.
  - injection Hrun as <-. lia.
  - destruct (exec c m) as [m1|] eqn:Hc; [|done].
    apply exec_clock in Hc. apply IH in Hrun. lia.
Qed.

Lemma boot_clock t0 os m : boot t0 os = Some m -> clock m = t0 /\ heap m = [].
Proof. unfold boot. destruct (New os); [|done]. by intros [= <-]. Qed.

Lemma boot_wf t0 os m : boot t0 os = Some m -> wf m.
Proof.
  unfold boot, New, lru_New. destruct (_ <=? 0); [done|].
  intros [= <-]. split; simpl.
  - intros a sl Ha. by rewrite lookup_nil in Ha.
  - intros k a Hin. by apply not_elem_of_nil in Hin.
Qed.

Lemma GetWithTimeout_items key timeout m x :
  x ∈ lru_items (cache (cch (GetWithTimeout key timeout m).2)) ->
  x ∈ lru_items (cache (cch m)).
Proof.
  unfold GetWithTimeout. pose proof (getEntry_cache (cch m) key) as Hc.
  destruct (getEntry (cch m) key) as [entity cc]; simpl in Hc.
  assert (x ∈ lru_items (cache cc) -> x ∈ lru_items (cache (cch m))) as Hx.
  { rewrite Hc. apply lru_Get_items. }
  destruct entity as [a|]; [|done].
  destruct (heap m !! a) as [sl|]; [|done].
  destruct (Expired _ _); [done|]. by destruct (getWithTimeout sl timeout).
Qed.

Lemma wf_reserve key lt m : wf m -> wf (ReserveWithLifetime key lt m).2.
Proof.
  intros [Hq Hs]. split; simpl.
  - intros a sl [Ha|[_ Ha]]%lookup_app_Some; [by eapply Hq|].
    destruct (a - length (heap m))%nat; [|done].
    injection Ha as <-. by unfold quiet, pristine.
  - intros k a [[= -> ->]|Hin]%lru_Add_items; rewrite length_app; simpl; [lia|].
    apply Hs in Hin. lia.
Qed.

Lemma exec_wf c m m' : exec c m = Some m' -> wf m -> wf m'.
Proof.
  intros Hc [Hq Hs]. destruct c as [key|key t|key|key lt|g entity e|d]; simpl in Hc.
  - apply returned_Some in Hc as ->. unfold Get. split.
    + rewrite GetWithTimeout_heap. apply Hq.
    + intros k a Hin%GetWithTimeout_items. rewrite GetWithTimeout_heap. eauto.
  - apply returned_Some in Hc as ->. split.
    + rewrite GetWithTimeout_heap. apply Hq.
    + intros k a Hin%GetWithTimeout_items. rewrite GetWithTimeout_heap. eauto.
  - injection Hc as <-. by apply wf_reserve.
  - injection Hc as <-. by apply wf_reserve.
  - destruct (resolve g entity e m) as [m1| | |] eqn:Hres; try done.
    + injection Hc as Heq. subst m1.
      pose proof (resolve_slot _ _ _ _ _ Hres)
        as (sl & sl1 & Hg & Hr & Hg1 & [Hr1 Hm1] & Hl1 & Hc1 & _).
      apply resolve_Resolved in Hres as (sl' & _ & _ & _ & _ & Hcc & Hh).
      split.
      * intros a sl2 Ha. destruct (decide (a = g)) as [->|Hne].
        -- rewrite Hg1 in Ha. injection Ha as <-.
           unfold quiet, finished. by rewrite Hr1.
        -- rewrite Hh, list_lookup_insert_ne in Ha by done. by eapply Hq.
      * intros k a. rewrite Hcc, Hh, length_insert. apply Hs.
    + injection Hc as <-. by split.
  - injection Hc as <-. by split.
Qed.

Lemma run_wf cs m m' : run cs m = Some m' -> wf m -> wf m'.
Proof.
  revert m. induction cs as [|c cs IH]; intros m Hrun Hwf; simpl in Hrun.
  - by injection Hrun as <-.
  - destruct (exec c m) as [m1|] eqn:Hc; [|done]. eauto using exec_wf.
Qed.

(** The store never holds a pointer to no entry. *)
Lemma store_valid m key a :
  wf m -> stored m key = Some a -> exists sl, heap m !! a = Some sl.
Proof.
  intros [_ Hs] Hk%assoc_Some_elem. apply Hs in Hk.
  by apply lookup_lt_is_Some_2 in Hk as [sl ?]; exists sl.
Qed.

(** The value of [GetWithTimeout] on a key that is in the store. *)
Lemma GetWithTimeout_stored key timeout m a sl :
  stored m key = Some a ->
  heap m !! a = Some sl ->
  (GetWithTimeout key timeout m).1 =
    if Expired (ent sl) (clock m) then Return zero (Some ErrExpired)
    else (getWithTimeout sl timeout).1.
Proof.
  intros Hk Ha. unfold GetWithTimeout, stored in *.
  pose proof (getEntry_fst (cch m) key) as Hf.
  destruct (getEntry (cch m) key) as [entity cc]. simpl in Hf.
  rewrite Hf, Hk, Ha. destruct (Expired _ _); [done|].
  by destruct (getWithTimeout sl timeout).
Qed.

Lemma getWithTimeout_finished sl timeout :
  lock (ent sl) = None ->
  getWithTimeout sl timeout = (delivered (value (ent sl)) (err (ent sl)), 0).
Proof.
  unfold getWithTimeout, delivered, read_entry. intros ->.
  by destruct (err (ent sl)).
Qed.

Lemma getWithTimeout_pristine sl timeout :
  lock (ent sl) = Some Chan -> closed sl = false ->
  getWithTimeout sl timeout =
    if timeout <? 0 then (Block, 0)
    else (Return zero (Some ErrGetCacheTimeout), timeout).
Proof. unfold getWithTimeout. by intros -> ->. Qed.
End SequentialFacts.

(** ** Construction, lookups, lifetimes and resolution *)

(** Case analysis on the integer tests of the code. *)
Ltac ztests :=
  unfold Expired, IsZero, After, Add in *;
  repeat match goal with
    | |- context [?a <=? ?b] => destruct (Z.leb_spec a b)
    | |- context [?a <? ?b] => destruct (Z.ltb_spec a b)
    | |- context [?a =? ?b] => destruct (Z.eqb_spec a b)
    | H : context [?a <=? ?b] |- _ => destruct (Z.leb_spec a b)
    | H : context [?a <? ?b] |- _ => destruct (Z.ltb_spec a b)
    | H : context [?a =? ?b] |- _ => destruct (Z.eqb_spec a b)
    end;
  simpl in *; try done; try lia.

Section CacheFacts.
Context {K : Type} `{EqDecision K} {V : Type} `{Zero V}.
Implicit Types (m : machine K V) (sl : slot V) (c : call K V)
  (cs : list (call K V)) (key : K).

Lemma foldl_Apply_size post o :
  forallb (fun w => negb (sets_size w)) post = true ->
  opt_size (foldl (fun acc w => Apply w acc) o post) = opt_size o.
Proof.
  revert o. induction post as [|w post IH]; intros o Hp; simpl in *; [done|].
  apply andb_prop in Hp as [Hw Hp]. rewrite IH by done.
  by destruct w.
Qed.

(** C8: [New] without options builds a cache of capacity 1024 whose default
    lifetime is negative (no expiration) and whose statistics are off; when
    the capacity given by the size option (the last one that sets it) is
    zero or negative, [New] returns an error and no cache. *)
Theorem New_defaults_and_size :
  New (K := K) [] =
    Some {| cache := {| lru_size := 1024; lru_items := [] |};
            opts := {| opt_size := 1024; opt_withStats := false;
                       opt_defaultLifetime := -1 |};
            stats := {| Hits := 0; Misses := 0 |} |}
  /\ forall pre n post,
       n <= 0 ->
       forallb (fun w => negb (sets_size w)) post = true ->
       New (K := K) (pre ++ WithSize n :: post) = None.
Proof.
  split; [done|]. intros pre n post Hn Hp.
  unfold New. rewrite foldl_app. simpl.
  rewrite foldl_Apply_size by done. simpl.
  unfold lru_New. by ztests.
Qed.

(** C2: once a resolve closure has run, every later call of it panics with
    "already reserved" and writes nothing: the value and the error of the
    first resolution stay in the entry, whatever calls come in between. *)
Theorem second_resolve_panics m f v1 e1 m1 cs m2 v2 e2 :
  resolve f v1 e1 m = Resolved m1 ->
  run cs m1 = Some m2 ->
  resolve f v2 e2 m2 = Panicked "already reserved"
  /\ exec (CallResolve f v2 e2) m2 = Some m2
  /\ exists sl, heap m2 !! f = Some sl /\ value (ent sl) = v1 /\ err (ent sl) = e1.
Proof.
  intros (sl & sl1 & _ & _ & Hf1 & Hs1 & _ & _ & Hv & He & _)%resolve_slot Hrun.
  assert (heap m2 !! f = Some sl1) as Hf2 by (eapply run_keeps; eauto).
  assert (resolve f v2 e2 m2 = Panicked "already reserved") as Hp.
  { unfold resolve. rewrite Hf2. destruct Hs1 as [-> ->]. done. }
  split; [done|]. split; [simpl; by rewrite Hp|]. by exists sl1.
Qed.

(** C3: a slot resolved at [resolveTime] with lifetime [L >= 0] is expired
    exactly at the instants after [resolveTime + L]: as long as it is stored
    under its key, [GetWithTimeout] (so [Get]) delivers it whenever
    [now <= resolveTime + L] and answers [ErrExpired] whenever
    [now > resolveTime + L].  Resolved with a negative lifetime it is expired
    at no instant and is delivered at every later time. *)
Theorem lifetime_decides_expiry t0 os m0 cs0 m f entity e m1 cs m2 key timeout sl :
  0 < t0 ->
  boot t0 os = Some m0 ->
  run cs0 m0 = Some m ->
  heap m !! f = Some sl ->
  resolve f entity e m = Resolved m1 ->
  run cs m1 = Some m2 ->
  stored m2 key = Some f ->
  let L := lifetime sl in
  let resolveTime := clock m in
  let now := clock m2 in
  (exists sl2,
     heap m2 !! f = Some sl2 /\
     forall t, Expired (ent sl2) t = if 0 <=? L then resolveTime + L <? t else false)
  /\ (0 <= L -> now <= resolveTime + L ->
        (GetWithTimeout key timeout m2).1 = delivered entity e)
  /\ (0 <= L -> resolveTime + L < now ->
        (GetWithTimeout key timeout m2).1 = Return zero (Some ErrExpired))
  /\ (L < 0 -> (GetWithTimeout key timeout m2).1 = delivered entity e).
Proof.
  intros Ht0 Hboot Hrun0 Hf Hres Hrun Hk L resolveTime now.
  assert (wf m) as [Hq _] by eauto using run_wf, boot_wf.
  assert (0 < clock m) as Hpos.
  { apply boot_clock in Hboot as [Hc _]. apply run_clock in Hrun0. lia. }
  apply resolve_slot in Hres
    as (sl' & sl1 & Hf' & Hr & Hf1 & Hs1 & Hl1 & _ & Hv & He & _ & Hx).
  rewrite Hf in Hf'. injection Hf' as <-.
  apply Hq in Hf. unfold quiet in Hf. rewrite Hr in Hf. destruct Hf as (_ & _ & Hz & _).
  assert (heap m2 !! f = Some sl1) as Hf2 by (eapply run_keeps; eauto).
  rewrite (GetWithTimeout_stored _ _ _ _ _ Hk Hf2).
  rewrite (getWithTimeout_finished _ _ Hl1), Hv, He. simpl.
  subst L resolveTime now. split.
  { exists sl1. split; [done|]. intros t. unfold Expired. rewrite Hx, Hz. ztests. }
  unfold Expired. rewrite Hx, Hz.
  repeat split; intros; ztests.
Qed.

(** Away from the top of the [uint32] range [AddUint32 _ 1] adds one. *)
Lemma AddUint32_succ x : 0 <= x < uint32_modulus - 1 -> AddUint32 x 1 = x + 1.
Proof. intros Hx. unfold AddUint32. apply Z.mod_small. lia. Qed.

(** C4: a key that is in the store counts as a hit when statistics are on,
    whatever the state of its slot, and never as a miss; when the slot has
    expired the call answers [ErrExpired] without reaching the wait: it
    returns even with no timeout, no time passes, and the goroutine
    goes from the expiry test straight to its return. *)
Theorem present_key_is_a_hit m key timeout a :
  stored m key = Some a ->
  let m' := (GetWithTimeout key timeout m).2 in
  (opt_withStats (opts (cch m)) = true ->
     Hits (stats (cch m')) = AddUint32 (Hits (stats (cch m))) 1 /\
     Misses (stats (cch m')) = Misses (stats (cch m)))
  /\ (opt_withStats (opts (cch m)) = false -> stats (cch m') = stats (cch m))
  /\ (forall sl, heap m !! a = Some sl -> Expired (ent sl) (clock m) = true ->
        (GetWithTimeout key timeout m).1 = Return zero (Some ErrExpired) /\
        clock m' = clock m /\
        thread_step m (TGet key timeout (GExpired a)) =
          Some (m, TGet key timeout (GFail ErrExpired))).
Proof.
  intros Hk m'. subst m'. unfold stored in Hk.
  assert (stats (cch (GetWithTimeout key timeout m).2) = stats (getEntry (cch m) key).2)
    as Hst.
  { unfold GetWithTimeout. destruct (getEntry (cch m) key) as [[b|] cc]; [|done].
    destruct (heap m !! b) as [sl|]; [|done].
    destruct (Expired _ _); [done|]. by destruct (getWithTimeout sl timeout). }
  rewrite Hst. unfold getEntry, lru_Get. unfold lru_Peek in Hk. rewrite Hk. simpl.
  split; [by intros ->|]. split; [by intros ->|].
  intros sl Ha Hx. rewrite Ha. simpl. rewrite Hx.
  unfold GetWithTimeout, getEntry, lru_Get. rewrite Hk. simpl. by rewrite Ha, Hx.
Qed.

(** A key no call has reserved is not in the store. *)
Lemma exec_stored_None c m m' key :
  exec c m = Some m' -> reserves key c = false ->
  stored m key = None -> stored m' key = None.
Proof.
  unfold stored, lru_Peek. rewrite !assoc_None_keys.
  intros Hc Hr Hk Hin. apply Hk. clear Hk.
  apply list_elem_of_fmap in Hin as ([k a] & -> & Hin). simpl.
  assert ((k, a) ∈ lru_items (cache (cch m))) as Hold; [|by apply (list_elem_of_fmap_2 fst) in Hold].
  destruct c as [key'|key' t|key'|key' lt|g entity e|d]; simpl in Hc, Hr.
  - apply returned_Some in Hc as ->. by eapply GetWithTimeout_items.
  - apply returned_Some in Hc as ->. by eapply GetWithTimeout_items.
  - injection Hc as <-. simpl in Hin.
    apply lru_Add_items in Hin as [[= -> ->]|?]; [|done].
    by rewrite bool_decide_eq_false in Hr.
  - injection Hc as <-. simpl in Hin.
    apply lru_Add_items in Hin as [[= -> ->]|?]; [|done].
    by rewrite bool_decide_eq_false in Hr.
  - destruct (resolve g entity e m) as [m1| | |] eqn:Hres; try done.
    + injection Hc as Heq. subst m1.
      apply resolve_Resolved in Hres as (_ & _ & _ & _ & _ & Hcc & _). by rewrite <- Hcc.
    + by injection Hc as <-.
  - by injection Hc as <-.
Qed.

Lemma never_reserved_absent t0 os m0 cs m key :
  boot t0 os = Some m0 -> run cs m0 = Some m -> never_reserves key cs ->
  stored m key = None.
Proof.
  intros Hboot. assert (stored m0 key = None) as H0.
  { unfold boot, New, lru_New in Hboot. destruct (_ <=? 0); [done|].
    by injection Hboot as <-. }
  clear Hboot. revert m0 H0. induction cs as [|c cs IH]; intros m0 H0 Hrun Hn; simpl in Hrun.
  - by injection Hrun as <-.
  - destruct (exec c m0) as [m1|] eqn:Hc; [|done]. inversion Hn; subst.
    eapply IH; [|done..]. by eapply exec_stored_None.
Qed.

(** C5: for a key that is not in the store (as is every key never
    reserved, lemma [never_reserved_absent]) [GetWithTimeout] and [Get]
    return the zero value and [ErrEntryNotFound]; with statistics on,
    [Misses] is incremented by one (as a [uint32]) and [Hits] is
    unchanged. *)
Theorem absent_key_is_a_miss m key timeout :
  stored m key = None ->
  (GetWithTimeout key timeout m).1 = Return zero (Some ErrEntryNotFound)
  /\ (Get key m).1 = Return zero (Some ErrEntryNotFound)
  /\ (opt_withStats (opts (cch m)) = true ->
        Misses (stats (cch (GetWithTimeout key timeout m).2)) =
          AddUint32 (Misses (stats (cch m))) 1 /\
        Hits (stats (cch (GetWithTimeout key timeout m).2)) = Hits (stats (cch m)))
  /\ (opt_withStats (opts (cch m)) = false ->
        stats (cch (GetWithTimeout key timeout m).2) = stats (cch m)).
Proof.
  intros Hk. unfold stored, lru_Peek in Hk.
  unfold Get, GetWithTimeout, getEntry, lru_Get. rewrite Hk. simpl.
  split; [done|]. split; [done|]. split; by intros ->.
Qed.

Lemma GetWithTimeout_keeps_stored key timeout m a :
  stored m key = Some a -> stored (GetWithTimeout key timeout m).2 key = Some a.
Proof.
  intros Hk. unfold stored.
  assert (cache (cch (GetWithTimeout key timeout m).2) = (lru_Get (cache (cch m)) key).2)
    as ->.
  { unfold GetWithTimeout. pose proof (getEntry_cache (cch m) key) as Hc.
    destruct (getEntry (cch m) key) as [[b|] cc]; simpl in Hc; [|done].
    destruct (heap m !! b) as [sl|]; [|done].
    destruct (Expired _ _); [done|]. by destruct (getWithTimeout sl timeout). }
  by apply lru_Get_keeps.
Qed.

Lemma reserve_slot key lt m :
  heap (ReserveWithLifetime key lt m).2 !! (ReserveWithLifetime key lt m).1 =
    Some {| ent := {| lock := Some Chan; value := zero; err := None; expireAt := 0 |};
            closed := false; mux := false; reserved := false; lifetime := lt |}.
Proof. simpl. by rewrite lookup_app_r, Nat.sub_diag. Qed.

Lemma GetWithTimeout_pending key timeout m a sl :
  stored m key = Some a -> heap m !! a = Some sl ->
  lock (ent sl) = Some Chan -> closed sl = false -> expireAt (ent sl) = 0 ->
  0 <= timeout ->
  (GetWithTimeout key timeout m).1 = Return zero (Some ErrGetCacheTimeout) /\
  clock (GetWithTimeout key timeout m).2 = clock m + timeout.
Proof.
  intros Hk Ha Hl Hc Hz Ht. unfold stored, lru_Peek in Hk.
  unfold GetWithTimeout, getEntry, lru_Get. rewrite Hk. simpl. rewrite Ha.
  unfold Expired. rewrite Hz. simpl.
  rewrite (getWithTimeout_pristine _ _ Hl Hc). by ztests.
Qed.

(** C6: with a zero timeout [getWithTimeout] polls.  On a slot reserved
    and not yet resolved it returns [ErrGetCacheTimeout] without waiting, and
    so does [GetWithTimeout] on a key of the slot: no time passes, no entry
    is written and the slot stays in the store.  Once the slot is resolved
    the same call returns what was resolved, again without waiting;
    [GetWithTimeout] does so as long as the slot has not expired. *)
Theorem zero_timeout_polls m key lt cs m2 :
  let f := (ReserveWithLifetime key lt m).1 in
  run cs (ReserveWithLifetime key lt m).2 = Some m2 ->
  leaves_unresolved f cs ->
  (exists sl,
     heap m2 !! f = Some sl /\
     getWithTimeout sl 0 = (Return zero (Some ErrGetCacheTimeout), 0) /\
     forall key',
       stored m2 key' = Some f ->
       (GetWithTimeout key' 0 m2).1 = Return zero (Some ErrGetCacheTimeout) /\
       clock (GetWithTimeout key' 0 m2).2 = clock m2 /\
       heap (GetWithTimeout key' 0 m2).2 = heap m2 /\
       stored (GetWithTimeout key' 0 m2).2 key' = Some f)
  /\ forall entity e m3 cs' m4,
       resolve f entity e m2 = Resolved m3 ->
       run cs' m3 = Some m4 ->
       exists sl4,
         heap m4 !! f = Some sl4 /\
         getWithTimeout sl4 0 = (delivered entity e, 0) /\
         forall key',
           stored m4 key' = Some f ->
           lt < 0 \/ clock m4 <= clock m2 + lt ->
           (GetWithTimeout key' 0 m4).1 = delivered entity e /\
           clock (GetWithTimeout key' 0 m4).2 = clock m4.
Proof.
  intros f Hrun Hun.
  pose proof (reserve_slot key lt m) as Hf. fold f in Hf.
  eapply run_keeps in Hf; [|done|by right].
  split.
  - eexists. split; [exact Hf|]. split; [done|]. intros key' Hk.
    destruct (GetWithTimeout_pending key' 0 m2 f _ Hk Hf) as [Hr Hc]; try done.
    split; [done|]. split; [lia|]. split; [apply GetWithTimeout_heap|].
    by apply GetWithTimeout_keeps_stored.
  - intros entity e m3 cs' m4 Hres Hrun'.
    apply resolve_slot in Hres
      as (sl' & sl1 & Hf' & Hr & Hf1 & Hs1 & Hl1 & _ & Hv & He & _ & Hx).
    rewrite Hf in Hf'. injection Hf' as <-. simpl in Hx.
    assert (heap m4 !! f = Some sl1) as Hf4 by (eapply run_keeps; eauto).
    exists sl1. split; [done|].
    assert (getWithTimeout sl1 0 = (delivered entity e, 0)) as Hg.
    { by rewrite (getWithTimeout_finished _ _ Hl1), Hv, He. }
    split; [done|]. intros key' Hk' Hlt.
    unfold stored, lru_Peek in Hk'.
    unfold GetWithTimeout, getEntry, lru_Get. rewrite Hk'. simpl. rewrite Hf4, Hg.
    assert (Expired (ent sl1) (clock m4) = false) as ->.
    { unfold Expired. rewrite Hx. destruct Hlt; ztests. }
    simpl. unfold Add. split; [done|lia].
Qed.

(** C9: a slot resolved with a non-nil error keeps the value it was given
    but never hands it out: [get] and [getWithTimeout] on the slot return the
    zero value and that error, for every timeout, and so do [Get] and
    [GetWithTimeout] of the cache for every key the slot is stored under (an
    expired slot is not read: the answer is the zero value and
    [ErrExpired]). *)
Theorem error_hides_value m f entity e0 m1 cs m2 :
  resolve f entity (Some e0) m = Resolved m1 ->
  run cs m1 = Some m2 ->
  exists sl,
    heap m2 !! f = Some sl /\
    value (ent sl) = entity /\ err (ent sl) = Some e0 /\
    get sl = (Return zero (Some e0), 0) /\
    (forall timeout, getWithTimeout sl timeout = (Return zero (Some e0), 0)) /\
    (forall key timeout,
       stored m2 key = Some f ->
       (GetWithTimeout key timeout m2).1 =
         Return zero (Some (if Expired (ent sl) (clock m2) then ErrExpired else e0))).
Proof.
  intros (sl & sl1 & _ & _ & Hf1 & Hs1 & Hl1 & _ & Hv & He & _)%resolve_slot Hrun.
  assert (heap m2 !! f = Some sl1) as Hf2 by (eapply run_keeps; eauto).
  exists sl1. split; [done|]. split; [done|]. split; [done|].
  assert (forall timeout, getWithTimeout sl1 timeout = (Return zero (Some e0), 0)) as Hg.
  { intros t. rewrite (getWithTimeout_finished _ _ Hl1), He. done. }
  split; [apply Hg|]. split; [done|]. intros key timeout Hk.
  rewrite (GetWithTimeout_stored _ _ _ _ _ Hk Hf2), Hg.
  by destruct (Expired _ _).
Qed.

(** C10: from its reservation until its resolve closure is called a slot
    has the zero [expireAt], so [Expired] is false at every instant and
    [GetWithTimeout] never answers [ErrExpired] for it, whatever lifetime
    was requested and however much time has passed: it waits, and gives up
    with [ErrGetCacheTimeout] when it has a timeout. *)
Theorem pending_slot_never_expired m key lt cs m2 :
  let f := (ReserveWithLifetime key lt m).1 in
  run cs (ReserveWithLifetime key lt m).2 = Some m2 ->
  leaves_unresolved f cs ->
  exists sl,
    heap m2 !! f = Some sl /\
    expireAt (ent sl) = 0 /\
    (forall now, Expired (ent sl) now = false) /\
    (forall key' timeout,
       stored m2 key' = Some f ->
       (GetWithTimeout key' timeout m2).1 =
         if timeout <? 0 then Block else Return zero (Some ErrGetCacheTimeout)).
Proof.
  intros f Hrun Hun.
  pose proof (reserve_slot key lt m) as Hf. fold f in Hf.
  eapply run_keeps in Hf; [|done|by right].
  eexists. split; [exact Hf|]. split; [done|]. split; [done|].
  intros key' timeout Hk.
  rewrite (GetWithTimeout_stored _ _ _ _ _ Hk Hf). simpl.
  unfold getWithTimeout. simpl. by destruct (timeout <? 0).
Qed.
End CacheFacts.

(** ** Concurrent callers *)

Section ConcurrentFacts.
Context {K : Type} `{EqDecision K} {V : Type} `{Zero V}.
Implicit Types (m : machine K V) (sl : slot V) (s : cstate K V) (key : K).

(** The statements of the resolve closure, seen from its slot. *)
Lemma resolve_step_fact now entity e pc sl sl' pc' :
  slot_ok sl -> resolve_fact entity e pc sl ->
  resolve_step now entity e pc sl = Some (sl', pc') ->
  resolve_fact entity e pc' sl'.
Proof.
  intros [Hp _] Hf Hs. destruct pc; simpl in *; try done.
  - destruct (mux sl); [done|]. by injection Hs as <- <-.
  - destruct (reserved sl) eqn:Hr; injection Hs as <- <-; simpl; done.
  - injection Hs as <- <-. simpl. destruct Hf as [? Hr]. by destruct (Hp Hr).
  - injection Hs as <- <-. simpl. by destruct Hf as (? & ? & ?).
  - injection Hs as <- <-. unfold stamp. by destruct (0 <=? lifetime sl).
  - injection Hs as <- <-. simpl. by destruct Hf as (? & ? & ? & ? & ?).
  - injection Hs as <- <-. simpl. done.
  - injection Hs as <- <-. simpl. by destruct Hf as (? & ? & ? & ? & ?).
Qed.

Lemma resolve_step_slot_ok now entity e pc sl sl' pc' :
  slot_ok sl -> resolve_fact entity e pc sl ->
  resolve_step now entity e pc sl = Some (sl', pc') ->
  slot_ok sl'.
Proof.
  intros [Hp Hl] Hf Hs. destruct pc; simpl in *; try done.
  - destruct (mux sl); [done|]. injection Hs as <- <-. by split.
  - destruct (reserved sl) eqn:Hr; injection Hs as <- <-;
      (split; simpl; intros; first [done | congruence | auto]).
  - injection Hs as <- <-. split; simpl; done.
  - injection Hs as <- <-. destruct Hf as (_ & Hr & _).
    split; simpl; [congruence|done].
  - injection Hs as <- <-. destruct Hf as (_ & Hr & _).
    unfold stamp. destruct (0 <=? lifetime sl); [|by split].
    split; simpl; [congruence|done].
  - injection Hs as <- <-. destruct Hf as (_ & Hr & _).
    split; simpl; [congruence|done].
  - injection Hs as <- <-. destruct Hf as (_ & Hr & Hc & _).
    split; simpl; [congruence|done].
  - injection Hs as <- <-. by split.
Qed.

Lemma resolve_step_later now entity e pc sl sl' pc' :
  resolve_fact entity e pc sl ->
  resolve_step now entity e pc sl = Some (sl', pc') ->
  later sl sl'.
Proof.
  intros Hf Hs. destruct pc; simpl in *; try done.
  - destruct (mux sl); [done|]. by injection Hs as <- <-.
  - destruct (reserved sl) eqn:Hr; injection Hs as <- <-; simpl; done.
  - injection Hs as <- <-. split; simpl; done.
  - injection Hs as <- <-. destruct Hf as (_ & _ & Hc).
    split; simpl; [congruence|done].
  - injection Hs as <- <-. unfold stamp. by destruct (0 <=? lifetime sl).
  - injection Hs as <- <-. split; simpl; done.
  - injection Hs as <- <-. split; simpl; done.
  - injection Hs as <- <-. split; simpl; done.
Qed.

Lemma resolve_step_won now entity e pc sl sl' pc' :
  resolve_step now entity e pc sl = Some (sl', pc') ->
  won pc = true -> won pc' = true.
Proof. destruct pc; simpl; try done; by intros [= <- <-]. Qed.

Lemma resolve_step_holding now entity e pc sl sl' pc' :
  resolve_step now entity e pc sl = Some (sl', pc') ->
  holding pc = false -> pc = RLock /\ mux sl = false.
Proof. destruct pc; simpl; try done. by destruct (mux sl). Qed.

Lemma resolve_step_reserved now entity e pc sl sl' pc' :
  resolve_step now entity e pc sl = Some (sl', pc') ->
  reserved sl = false -> reserved sl' = true -> pc = RSet.
Proof.
  destruct pc; simpl; try done.
  - destruct (mux sl); [done|]. intros [= <- <-]. simpl. intros; congruence.
  - destruct (reserved sl) eqn:Hr; intros [= <- <-]; simpl; intros; congruence.
  - intros [= <- <-]. simpl. intros; congruence.
  - intros [= <- <-]. unfold stamp. destruct (0 <=? _); simpl; intros; congruence.
  - intros [= <- <-]. simpl. intros; congruence.
  - intros [= <- <-]. simpl. intros; congruence.
  - intros [= <- <-]. simpl. intros; congruence.
Qed.

(** What the other goroutines know survives a forward move of the slot,
    unless they hold its mutex. *)
Lemma thread_fact_later (t : thread K V) sl sl' f :
  later sl sl' -> ~ holds t f -> thread_addr t = Some f ->
  thread_fact t sl -> thread_fact t sl'.
Proof.
  intros [Hc Hr] Hh Ha. destruct t as [key timeout pc|g entity e pc]; simpl in *.
  - destruct pc; simpl; try done.
    + intros Hcl. by destruct (Hc Hcl).
    + unfold read_entry. intros [Hcl Hre]. destruct (Hc Hcl) as (? & -> & ->). done.
  - injection Ha as ->.
    destruct pc; simpl in *; try done; try (exfalso; by apply Hh).
    intros (? & Hcl & <- & <-). destruct (Hc Hcl) as (? & ? & ?). auto.
Qed.

Lemma holding_fact_mux entity e pc sl :
  holding pc = true -> resolve_fact entity e pc sl -> mux sl = true.
Proof. destruct pc; simpl; try done; tauto. Qed.

Lemma won_fact_reserved entity e pc sl :
  won pc = true -> resolve_fact entity e pc sl -> reserved sl = true.
Proof. destruct pc; simpl; try done; tauto. Qed.

Lemma resolve_step_wins now entity e pc sl sl' pc' :
  resolve_step now entity e pc sl = Some (sl', pc') ->
  won pc = false -> won pc' = true -> pc = RSet.
Proof.
  destruct pc; simpl; try done.
  - destruct (mux sl); [done|]. by intros [= <- <-].
  - destruct (reserved sl); by intros [= <- <-].
Qed.

Lemma thread_ok_resolve hp f entity e pc sl :
  thread_ok hp (TResolve f entity e pc : thread K V) -> hp !! f = Some sl ->
  resolve_fact entity e pc sl.
Proof. unfold thread_ok. simpl. intros (sl0 & Hf & Hfact) Hf'. congruence. Qed.

Lemma lookup_snoc_inv {A} (l : list A) (x y : A) i :
  (l ++ [x]) !! i = Some y -> l !! i = Some y \/ y = x.
Proof.
  intros [?|[_ Hl]]%lookup_app_Some; [by left|right].
  destruct (i - length l)%nat; simpl in Hl; [congruence|done].
Qed.

(** *** The invariant holds initially and is kept by every action *)

Lemma Inv_start t0 os m0 : boot t0 os = Some m0 -> Inv (start m0).
Proof.
  unfold boot, New, lru_New. destruct (_ <=? 0); [done|]. intros [= <-].
  split; simpl; intros *; try (by rewrite lookup_nil).
  by intros ?%not_elem_of_nil.
Qed.

Lemma Inv_tick s d : Inv s -> Inv {| mach := advance (mach s) d; threads := threads s |}.
Proof. intros [? ? ? ? ? ?]. by split. Qed.

Lemma Inv_spawn s (t : thread K V) :
  Inv s -> thread_ok (heap (mach s)) t ->
  (forall f, ~ holds t f) -> (forall f, ~ winner t f) ->
  Inv {| mach := mach s; threads := threads s ++ [t] |}.
Proof.
  intros [Hsl Hth Hho Hwi Hre Hst] Hok Hnh Hnw. split; simpl; try done.
  - intros i t' [?| ->]%lookup_snoc_inv; eauto.
  - intros i j ti tj f [Hi| ->]%lookup_snoc_inv [Hj| ->]%lookup_snoc_inv Hhi Hhj;
      try (by eapply Hho); exfalso; by eapply Hnh.
  - intros i j ti tj f [Hi| ->]%lookup_snoc_inv [Hj| ->]%lookup_snoc_inv Hwi' Hwj;
      try (by eapply Hwi); exfalso; by eapply Hnw.
  - intros a sl Ha Hr. destruct (Hre a sl Ha Hr) as (j & tj & Hj & Hw).
    exists j, tj. split; [|done]. by apply lookup_app_l_Some.
Qed.

Lemma Inv_reserve s key lt :
  Inv s ->
  Inv {| mach := (ReserveWithLifetime key lt (mach s)).2; threads := threads s |}.
Proof.
  intros [Hsl Hth Hho Hwi Hre Hst]. split; simpl; try done.
  - intros a sl [Ha|[_ Ha]]%lookup_app_Some; [by eapply Hsl|].
    destruct (a - length (heap (mach s)))%nat; [|done].
    injection Ha as <-. by split.
  - intros i t Hi. specialize (Hth i t Hi). unfold thread_ok in *.
    destruct (thread_addr t) as [a|]; [|done].
    destruct Hth as (sl & Ha & Hf). exists sl. split; [|done].
    by apply lookup_app_l_Some.
  - intros a sl [Ha|[_ Ha]]%lookup_app_Some Hr; [by eapply Hre|].
    destruct (a - length (heap (mach s)))%nat; [|done].
    injection Ha as <-. done.
  - intros k a [[= -> ->]|Hin]%lru_Add_items; rewrite length_app; simpl; [lia|].
    apply Hst in Hin. lia.
Qed.

(** A reader moves on: the heap is as it was. *)
Lemma Inv_replace_get s i key timeout pc pc' cc :
  Inv s ->
  threads s !! i = Some (TGet key timeout pc) ->
  thread_ok (heap (mach s)) (TGet key timeout pc') ->
  (forall x, x ∈ lru_items (cache cc) -> x ∈ lru_items (cache (cch (mach s)))) ->
  Inv {| mach := set_cch (mach s) cc;
         threads := <[i := TGet key timeout pc']> (threads s) |}.
Proof.
  intros [Hsl Hth Hho Hwi Hre Hst] Hi Hok Hsub. split; simpl; try done.
  - intros j t [(-> & <- & _)|[_ Hj]]%list_lookup_insert_Some; eauto.
  - intros j1 j2 t1 t2 f
      [(<- & <- & _)|[_ H1]]%list_lookup_insert_Some
      [(<- & <- & _)|[_ H2]]%list_lookup_insert_Some; simpl; try done.
    by eapply Hho.
  - intros j1 j2 t1 t2 f
      [(<- & <- & _)|[_ H1]]%list_lookup_insert_Some
      [(<- & <- & _)|[_ H2]]%list_lookup_insert_Some; simpl; try done.
    by eapply Hwi.
  - intros a sl Ha Hr. destruct (Hre a sl Ha Hr) as (j & tj & Hj & Hw).
    exists j, tj. split; [|done].
    rewrite list_lookup_insert_ne; [done|]. intros <-.
    rewrite Hi in Hj. injection Hj as <-. done.
  - intros k a Hin%Hsub. eauto.
Qed.

(** While a call of the resolve closure can take a step, no other
    goroutine holds the mutex of its slot. *)
Lemma step_excludes_holders s i f entity e pc sl sl' pc' j (tj : thread K V) :
  Inv s ->
  threads s !! i = Some (TResolve f entity e pc) ->
  heap (mach s) !! f = Some sl ->
  resolve_step (clock (mach s)) entity e pc sl = Some (sl', pc') ->
  j <> i -> threads s !! j = Some tj -> ~ holds tj f.
Proof.
  intros HI Hi Hf Hstep Hne Hj Hh.
  destruct (holding pc) eqn:Hpc.
  - apply Hne. eapply (inv_holder s HI); [exact Hj|exact Hi|done|done].
  - apply (resolve_step_holding _ _ _ _ _ _ _ Hstep) in Hpc as [_ Hmux].
    destruct tj as [? ? ?|g entity' e' pc'']; [done|]. destruct Hh as [-> Hh].
    pose proof (inv_threads s HI _ _ Hj) as Hok.
    eapply thread_ok_resolve in Hok; [|done].
    apply holding_fact_mux in Hok; [congruence|done].
Qed.

(** A statement of the resolve closure keeps the invariant. *)
Lemma Inv_resolve_step s i f entity e pc sl sl' pc' :
  Inv s ->
  threads s !! i = Some (TResolve f entity e pc) ->
  heap (mach s) !! f = Some sl ->
  resolve_step (clock (mach s)) entity e pc sl = Some (sl', pc') ->
  Inv {| mach := set_slot (mach s) f sl';
         threads := <[i := TResolve f entity e pc']> (threads s) |}.
Proof.
  intros HI Hi Hf Hstep.
  pose proof (fun j tj => step_excludes_holders s i f entity e pc sl sl' pc' j tj
                            HI Hi Hf Hstep) as Hexcl.
  pose proof (inv_slots s HI _ _ Hf) as Hok.
  pose proof (thread_ok_resolve _ _ _ _ _ _ (inv_threads s HI _ _ Hi) Hf) as Hfact.
  pose proof (resolve_step_fact _ _ _ _ _ _ _ Hok Hfact Hstep) as Hfact'.
  pose proof (resolve_step_slot_ok _ _ _ _ _ _ _ Hok Hfact Hstep) as Hok'.
  pose proof (resolve_step_later _ _ _ _ _ _ _ Hfact Hstep) as Hlater.
  assert (f < length (heap (mach s)))%nat as Hlen by (by eapply lookup_lt_Some).
  assert (i < length (threads s))%nat as Hleni by (by eapply lookup_lt_Some).
  split; simpl.
  - intros a sl0 [(<- & <- & _)|[_ Ha]]%list_lookup_insert_Some; [done|].
    by eapply (inv_slots s HI).
  - intros j t [(<- & <- & _)|[Hne Hj]]%list_lookup_insert_Some.
    + unfold thread_ok. simpl. exists sl'. split; [|done].
      by apply list_lookup_insert_eq.
    + pose proof (inv_threads s HI _ _ Hj) as Hokj. unfold thread_ok in *.
      destruct (thread_addr t) as [a|] eqn:Hat; [|done].
      destruct Hokj as (sl0 & Ha & Hfa).
      destruct (decide (a = f)) as [->|Hnf].
      * exists sl'. split; [by apply list_lookup_insert_eq|].
        rewrite Hf in Ha. injection Ha as <-.
        eapply thread_fact_later; [done| |done|done]. eapply Hexcl; [|done]. done.
      * exists sl0. split; [|done]. by rewrite list_lookup_insert_ne.
  - intros j1 j2 t1 t2 g
      [(<- & <- & _)|[Hn1 H1]]%list_lookup_insert_Some
      [(Heq & <- & _)|[Hn2 H2]]%list_lookup_insert_Some; simpl; try done.
    + intros [<- _] Hh. exfalso. eapply Hexcl; [|exact H2|exact Hh]. done.
    + intros Hh [<- _]. exfalso. eapply Hexcl; [|exact H1|exact Hh]. done.
    + by eapply (inv_holder s HI).
  - assert (won pc' = true ->
            forall j tj, j <> i -> threads s !! j = Some tj -> ~ winner tj f) as Hnw.
    { intros Hpc' j tj Hne Hj Hw. destruct (won pc) eqn:Hpc.
      - apply Hne. eapply (inv_winner s HI); [exact Hj|exact Hi|done|done].
      - destruct tj as [? ? ?|g entity' e' pc'']; [done|]. destruct Hw as [-> Hw].
        pose proof (inv_threads s HI _ _ Hj) as Hokj.
        eapply thread_ok_resolve in Hokj; [|done].
        apply won_fact_reserved in Hokj; [|done].
        pose proof (resolve_step_wins _ _ _ _ _ _ _ Hstep Hpc Hpc') as ->.
        simpl in Hfact. destruct Hfact. congruence. }
    intros j1 j2 t1 t2 g
      [(<- & <- & _)|[Hn1 H1]]%list_lookup_insert_Some
      [(Heq & <- & _)|[Hn2 H2]]%list_lookup_insert_Some; simpl; try done.
    + intros [<- Hpc'] Hw. exfalso. eapply (Hnw Hpc'); [|exact H2|exact Hw]. done.
    + intros Hw [<- Hpc']. exfalso. eapply (Hnw Hpc'); [|exact H1|exact Hw]. done.
    + by eapply (inv_winner s HI).
  - intros a sl0 [(<- & <- & _)|[Hna Ha]]%list_lookup_insert_Some Hr.
    + destruct (reserved sl) eqn:Hrs.
      * destruct (inv_resolved s HI _ _ Hf Hrs) as (j & tj & Hj & Hw).
        destruct (decide (j = i)) as [->|Hne].
        -- exists i. eexists. split; [by apply list_lookup_insert_eq|].
           rewrite Hi in Hj. injection Hj as <-. destruct Hw as [_ Hw].
           split; [done|]. by eapply resolve_step_won.
        -- exists j, tj. split; [|done]. by rewrite list_lookup_insert_ne.
      * pose proof (resolve_step_reserved _ _ _ _ _ _ _ Hstep Hrs Hr) as ->.
        injection Hstep as <- <-.
        exists i. eexists. split; [by apply list_lookup_insert_eq|]. done.
    + destruct (inv_resolved s HI _ _ Ha Hr) as (j & tj & Hj & Hw).
      exists j, tj. split; [|done].
      rewrite list_lookup_insert_ne; [done|]. intros <-.
      rewrite Hi in Hj. injection Hj as <-. by destruct Hw as [-> _].
  - intros k a Hin. rewrite length_insert. by eapply (inv_store s HI).
Qed.

Lemma set_cch_same m : set_cch m (cch m) = m.
Proof. by destruct m. Qed.

(** A statement of [GetWithTimeout] leaves the heap alone and brings the
    reader to a program point whose knowledge holds. *)
Lemma get_step_inv m key timeout pc m' (t' : thread K V) :
  (forall a sl, heap m !! a = Some sl -> slot_ok sl) ->
  (forall k a, (k, a) ∈ lru_items (cache (cch m)) -> (a < length (heap m))%nat) ->
  thread_ok (heap m) (TGet key timeout pc : thread K V) ->
  thread_step m (TGet key timeout pc) = Some (m', t') ->
  exists cc pc',
    m' = set_cch m cc /\ t' = TGet key timeout pc' /\
    (forall x, x ∈ lru_items (cache cc) -> x ∈ lru_items (cache (cch m))) /\
    thread_ok (heap m) (TGet key timeout pc' : thread K V).
Proof.
  intros Hsl Hst Hok Hstep. unfold thread_ok in Hok.
  destruct pc as [|a|a|a|a dl|a|?|? ? ?]; simpl in *; try done.
  - pose proof (getEntry_fst (cch m) key) as Hfst.
    pose proof (getEntry_cache (cch m) key) as Hcache.
    destruct (getEntry (cch m) key) as [entity cc]; simpl in *.
    injection Hstep as <- <-. exists cc. eexists. split; [done|]. split; [done|].
    split; [intros x; rewrite Hcache; apply lru_Get_items|].
    destruct entity as [a|]; [|done]. unfold thread_ok. simpl.
    symmetry in Hfst. apply assoc_Some_elem, Hst in Hfst.
    apply lookup_lt_is_Some_2 in Hfst as [sl Ha]. by exists sl.
  - destruct Hok as (sl & Ha & _). rewrite Ha in Hstep. simpl in Hstep.
    injection Hstep as <- <-. exists (cch m). eexists.
    split; [by rewrite set_cch_same|]. split; [done|]. split; [done|].
    destruct (Expired _ _); [done|]. unfold thread_ok. simpl. by exists sl.
  - destruct Hok as (sl & Ha & _). rewrite Ha in Hstep. simpl in Hstep.
    injection Hstep as <- <-. exists (cch m). eexists.
    split; [by rewrite set_cch_same|]. split; [done|]. split; [done|].
    unfold thread_ok. destruct (lock (ent sl)) eqn:Hl.
    + destruct (timeout <? 0); simpl; by exists sl.
    + simpl. exists sl. split; [done|]. by apply (Hsl _ _ Ha).
  - destruct Hok as (sl & Ha & _). rewrite Ha in Hstep. simpl in Hstep.
    destruct (closed sl) eqn:Hc; [|done].
    injection Hstep as <- <-. exists (cch m). eexists.
    split; [by rewrite set_cch_same|]. split; [done|]. split; [done|].
    unfold thread_ok. simpl. by exists sl.
  - destruct Hok as (sl & Ha & _). rewrite Ha in Hstep. simpl in Hstep.
    destruct (closed sl) eqn:Hc; [|done].
    injection Hstep as <- <-. exists (cch m). eexists.
    split; [by rewrite set_cch_same|]. split; [done|]. split; [done|].
    unfold thread_ok. simpl. by exists sl.
  - destruct Hok as (sl & Ha & Hc). rewrite Ha in Hstep. simpl in Hstep.
    injection Hstep as <- <-. exists (cch m). eexists.
    split; [by rewrite set_cch_same|]. split; [done|]. split; [done|].
    unfold thread_ok. simpl. exists sl. split; [done|]. split; [done|].
    by destruct (read_entry (ent sl)).
Qed.

Lemma fire_Inv act s s' : Inv s -> fire act s = Some s' -> Inv s'.
Proof.
  intros HI Hfire. destruct act as [d|key timeout|key lt|f entity e|i|i]; simpl in Hfire.
  - destruct (0 <? d); [|done]. injection Hfire as <-. by apply Inv_tick.
  - injection Hfire as <-. apply Inv_spawn; [done|by unfold thread_ok|..]; intros ? Hh; exact Hh.
  - injection Hfire as <-. by apply Inv_reserve.
  - destruct (heap (mach s) !! f) as [sl|] eqn:Hf; [|done].
    injection Hfire as <-. apply Inv_spawn; try done.
    + unfold thread_ok. simpl. by exists sl.
    + by intros g [_ ?].
    + by intros g [_ ?].
  - destruct (threads s !! i) as [t|] eqn:Hi; [|done]. simpl in Hfire.
    destruct (thread_step (mach s) t) as [[m' t']|] eqn:Hstep; [|done].
    simpl in Hfire. injection Hfire as <-.
    destruct t as [key timeout pc|f entity e pc].
    + eapply get_step_inv in Hstep as (cc & pc' & -> & -> & Hsub & Hok);
        [|apply (inv_slots s HI)|apply (inv_store s HI)|apply (inv_threads s HI _ _ Hi)].
      by eapply Inv_replace_get.
    + simpl in Hstep.
      destruct (heap (mach s) !! f) as [sl|] eqn:Hf; [|done]. simpl in Hstep.
      destruct (resolve_step _ _ _ _ _) as [[sl' pc']|] eqn:Hrs; [|done].
      simpl in Hstep. injection Hstep as <- <-.
      by eapply Inv_resolve_step.
  - destruct (threads s !! i) as [t|] eqn:Hi; [|done]. simpl in Hfire.
    destruct (thread_timeout (mach s) t) as [t'|] eqn:Hto; [|done].
    simpl in Hfire. injection Hfire as <-.
    destruct t as [key timeout pc|]; [|done]. destruct pc; try done. simpl in Hto.
    destruct (_ <=? _); [|done]. injection Hto as <-.
    rewrite <- (set_cch_same (mach s)) at 1.
    eapply Inv_replace_get; try done.
Qed.

Lemma fires_Inv acts s s' : Inv s -> fires acts s = Some s' -> Inv s'.
Proof.
  revert s. induction acts as [|act acts IH]; intros s HI Hf; simpl in Hf.
  - by injection Hf as <-.
  - destruct (fire act s) as [s1|] eqn:Hact; [|done]. eauto using fire_Inv.
Qed.

Lemma reachable_Inv t0 os m0 acts s :
  boot t0 os = Some m0 -> fires acts (start m0) = Some s -> Inv s.
Proof. intros Hb Hf. eapply fires_Inv; [|done]. by eapply Inv_start. Qed.

(** Behind a closed channel stand the arguments of the one call of the
    resolve closure that passed the guard. *)
Lemma closed_slot_resolution s a sl :
  Inv s -> heap (mach s) !! a = Some sl -> closed sl = true ->
  exists j entity er pc,
    threads s !! j = Some (TResolve a entity er pc) /\ won pc = true /\
    value (ent sl) = entity /\ err (ent sl) = er.
Proof.
  intros HI Ha Hc.
  assert (reserved sl = true) as Hr.
  { destruct (reserved sl) eqn:Hr; [done|].
    destruct (inv_slots s HI _ _ Ha) as [Hp _]. destruct (Hp Hr). congruence. }
  destruct (inv_resolved s HI _ _ Ha Hr) as (j & t & Hj & Hw).
  destruct t as [? ? ?|g entity er pc]; [done|]. destruct Hw as [-> Hw].
  exists j, entity, er, pc. split; [done|]. split; [done|].
  pose proof (thread_ok_resolve _ _ _ _ _ _ (inv_threads s HI _ _ Hj) Ha) as Hf.
  destruct pc; simpl in *; try done; intuition congruence.
Qed.

(** *** The lone caller is one of the interleavings

    What the functions [resolve] and [GetWithTimeout] compute is what the
    step semantics does when the goroutine of the call runs alone; a wait for
    the timer of the [select] is the passing of [timeout]. *)

Lemma fire_Run_resolve s i f entity e pc sl sl' pc' :
  threads s !! i = Some (TResolve f entity e pc) ->
  heap (mach s) !! f = Some sl ->
  resolve_step (clock (mach s)) entity e pc sl = Some (sl', pc') ->
  fire (Run i) s =
    Some {| mach := set_slot (mach s) f sl';
            threads := <[i := TResolve f entity e pc']> (threads s) |}.
Proof. intros Hi Hf Hs. simpl. rewrite Hi. simpl. rewrite Hf. simpl. by rewrite Hs. Qed.

Lemma fire_Run_resolve_again m (ts : list (thread K V)) i f entity e pc sl sl' pc' :
  (f < length (heap m))%nat -> (i < length ts)%nat ->
  resolve_step (clock m) entity e pc sl = Some (sl', pc') ->
  fire (Run i) {| mach := set_slot m f sl;
                  threads := <[i := TResolve f entity e pc]> ts |} =
    Some {| mach := set_slot m f sl';
            threads := <[i := TResolve f entity e pc']> ts |}.
Proof.
  intros Hf Hi Hs.
  erewrite fire_Run_resolve; [|by apply list_lookup_insert_eq
                              |simpl; by apply list_lookup_insert_eq|exact Hs].
  unfold set_slot. simpl. by rewrite !list_insert_insert_eq.
Qed.

Lemma fires_step (act : action K V) acts s s' :
  fire act s = Some s' -> fires (act :: acts) s = fires acts s'.
Proof. intros Hs. simpl. by rewrite Hs. Qed.

Lemma resolve_is_a_run f entity e m m1 (ts : list (thread K V)) i :
  resolve f entity e m = Resolved m1 ->
  ts !! i = Some (TResolve f entity e RLock) ->
  fires (replicate 8 (Run i)) {| mach := m; threads := ts |} =
    Some {| mach := m1; threads := <[i := TResolve f entity e RDone]> ts |}.
Proof.
  intros (sl & Hf & Hm & Hr & Hc & Hcc & Hh)%resolve_Resolved Hi.
  assert (f < length (heap m))%nat as Hlf by (by eapply lookup_lt_Some).
  assert (i < length ts)%nat as Hli by (by eapply lookup_lt_Some).
  assert ({| mach := m; threads := ts |} =
          {| mach := set_slot m f sl; threads := <[i := TResolve f entity e RLock]> ts |})
    as ->.
  { unfold set_slot. rewrite !list_insert_id by done. by destruct m. }
  simpl replicate.
  erewrite fires_step;
    [|apply fire_Run_resolve_again; [done|done|simpl; by rewrite Hm]].
  erewrite fires_step;
    [|apply fire_Run_resolve_again; [done|done|simpl; by rewrite Hr]].
  do 6 (erewrite fires_step;
          [|apply fire_Run_resolve_again; [done|done|simpl; reflexivity]]).
  simpl. do 2 f_equal. destruct m1. simpl in *. subst. reflexivity.
Qed.

Lemma fire_Run_last m (ts : list (thread K V)) t m' t' :
  thread_step m t = Some (m', t') ->
  fire (Run (length ts)) {| mach := m; threads := ts ++ [t] |} =
    Some {| mach := m'; threads := ts ++ [t'] |}.
Proof.
  intros Hs. simpl. rewrite list_lookup_middle by done. simpl. rewrite Hs. simpl.
  rewrite insert_app_r_alt by done. by rewrite Nat.sub_diag.
Qed.

Lemma fire_Timer_last m (ts : list (thread K V)) t t' :
  thread_timeout m t = Some t' ->
  fire (Timer (length ts)) {| mach := m; threads := ts ++ [t] |} =
    Some {| mach := m; threads := ts ++ [t'] |}.
Proof.
  intros Hs. simpl. rewrite list_lookup_middle by done. simpl. rewrite Hs. simpl.
  rewrite insert_app_r_alt by done. by rewrite Nat.sub_diag.
Qed.

Lemma advance_0 m : advance m 0 = m.
Proof. destruct m. unfold advance, Add. simpl. by rewrite Z.add_0_r. Qed.

Lemma GetWithTimeout_is_a_run key timeout m v e m' (ts : list (thread K V)) :
  GetWithTimeout key timeout m = (Return v e, m') ->
  exists acts pc,
    fires acts {| mach := m; threads := ts ++ [TGet key timeout GEntry] |} =
      Some {| mach := m'; threads := ts ++ [TGet key timeout pc] |} /\
    returns pc v e.
Proof.
  unfold GetWithTimeout. intros Hget.
  destruct (getEntry (cch m) key) as [entity cc] eqn:Hge.
  assert (thread_step m (TGet key timeout GEntry) =
          Some (set_cch m cc,
                TGet key timeout match entity with
                                 | None => GFail ErrEntryNotFound
                                 | Some a => GExpired a
                                 end)) as H0.
  { simpl. by rewrite Hge. }
  destruct entity as [a|].
  2:{ injection Hget as <- <- <-.
      exists [Run (length ts)], (GFail ErrEntryNotFound). split; [|done].
      erewrite fires_step; [|by apply fire_Run_last]. done. }
  destruct (heap m !! a) as [sl|] eqn:Ha; [|done].
  assert (thread_step (set_cch m cc) (TGet key timeout (GExpired a)) =
          Some (set_cch m cc,
                TGet key timeout (if Expired (ent sl) (clock m)
                                  then GFail ErrExpired else GLock a))) as H1.
  { simpl. by rewrite Ha. }
  destruct (Expired (ent sl) (clock m)) eqn:Hx.
  { injection Hget as <- <- <-.
    exists [Run (length ts); Run (length ts)], (GFail ErrExpired). split; [|done].
    erewrite fires_step; [|by apply fire_Run_last].
    erewrite fires_step; [|by apply fire_Run_last]. done. }
  assert (thread_step (set_cch m cc) (TGet key timeout (GLock a)) =
          Some (set_cch m cc,
                TGet key timeout match lock (ent sl) with
                                 | None => GRead a
                                 | Some _ => if timeout <? 0 then GRecv a
                                             else GSelect a (Add (clock m) timeout)
                                 end)) as H2.
  { simpl. by rewrite Ha. }
  assert (thread_step (set_cch m cc) (TGet key timeout (GRead a)) =
          Some (set_cch m cc,
                TGet key timeout (GGot a (read_entry (ent sl)).1 (read_entry (ent sl)).2)))
    as H4.
  { simpl. by rewrite Ha. }
  unfold getWithTimeout in Hget.
  destruct (lock (ent sl)) as [[]|] eqn:Hl.
  - destruct (closed sl) eqn:Hc.
    + injection Hget as <- <- <-. rewrite advance_0.
      assert (exists pc, (if timeout <? 0 then GRecv a
                          else GSelect a (Add (clock m) timeout)) = pc /\
                         thread_step (set_cch m cc) (TGet key timeout pc) =
                           Some (set_cch m cc, TGet key timeout (GRead a)))
        as (pc & Hpc & H3).
      { destruct (timeout <? 0); eexists; (split; [done|]);
          simpl; rewrite Ha; simpl; by rewrite Hc. }
      rewrite Hpc in H2.
      exists (replicate 5 (Run (length ts))). eexists. split.
      * simpl replicate.
        erewrite fires_step; [|by apply fire_Run_last].
        erewrite fires_step; [|by apply fire_Run_last].
        erewrite fires_step; [|by apply fire_Run_last].
        erewrite fires_step; [|by apply fire_Run_last].
        erewrite fires_step; [|by apply fire_Run_last]. done.
      * done.
    + destruct (timeout <? 0) eqn:Ht; [done|]. injection Hget as <- <- <-.
      exists ([Run (length ts); Run (length ts); Run (length ts)] ++
              (if 0 <? timeout then [Tick timeout] else []) ++ [Timer (length ts)]).
      exists (GFail ErrGetCacheTimeout). split; [|done].
      simpl app.
      erewrite fires_step; [|by apply fire_Run_last].
      erewrite fires_step; [|by apply fire_Run_last].
      erewrite fires_step; [|by apply fire_Run_last].
      destruct (0 <? timeout) eqn:Hpos; simpl app.
      * erewrite fires_step; [|simpl; by rewrite Hpos].
        erewrite fires_step; [done|]. apply fire_Timer_last. simpl.
        unfold Add. by rewrite Z.leb_refl.
      * assert (timeout = 0) as -> by ztests.
        rewrite advance_0. erewrite fires_step; [done|]. apply fire_Timer_last. simpl.
        unfold Add. rewrite Z.add_0_r. by rewrite Z.leb_refl.
  - injection Hget as <- <- <-. rewrite advance_0.
    exists (replicate 4 (Run (length ts))). eexists. split.
    + simpl replicate.
      erewrite fires_step; [|by apply fire_Run_last].
      erewrite fires_step; [|by apply fire_Run_last].
      erewrite fires_step; [|by apply fire_Run_last].
      erewrite fires_step; [|by apply fire_Run_last]. done.
    + done.
Qed.

(** *** Pending slots and repeated resolution, among concurrent callers *)

(** A reader that tests a slot nobody has begun to resolve finds it not
    expired and goes on to the wait. *)
Lemma pending_slot_not_expired_step t0 os m0 acts s a sl key timeout :
  boot t0 os = Some m0 ->
  fires acts (start m0) = Some s ->
  heap (mach s) !! a = Some sl -> reserved sl = false ->
  (forall now, Expired (ent sl) now = false) /\
  thread_step (mach s) (TGet key timeout (GExpired a)) =
    Some (mach s, TGet key timeout (GLock a)).
Proof.
  intros Hboot Hfires Ha Hr.
  pose proof (reachable_Inv _ _ _ _ _ Hboot Hfires) as HI.
  destruct (inv_slots s HI _ _ Ha) as [Hp _]. destruct (Hp Hr) as (_ & _ & Hz).
  assert (forall now, Expired (ent sl) now = false) as Hx.
  { intros now. unfold Expired. by rewrite Hz. }
  split; [done|]. simpl. rewrite Ha. simpl. by rewrite Hx.
Qed.

(** A call of the resolve closure that reaches the guard of a slot
    already resolved panics, releases the mutex and leaves the entry as it
    is. *)
Lemma late_resolve_panics_step s j a entity e sl :
  threads s !! j = Some (TResolve a entity e RGuard) ->
  heap (mach s) !! a = Some sl -> reserved sl = true ->
  fire (Run j) s =
    Some {| mach := set_slot (mach s) a (set_mux false sl);
            threads := <[j := TResolve a entity e RPanic]> (threads s) |}
  /\ ent (set_mux false sl) = ent sl.
Proof.
  intros Hj Ha Hr. split; [|done].
  eapply fire_Run_resolve; [done|done|]. simpl. by rewrite Hr.
Qed.

(** Callers that have returned from one slot have returned the same. *)
Lemma got_slot s i key timeout a v e :
  Inv s ->
  threads s !! i = Some (TGet key timeout (GGot a v e)) ->
  exists sl, heap (mach s) !! a = Some sl /\ closed sl = true /\
             read_entry (ent sl) = (v, e).
Proof.
  intros HI Hi.
  pose proof (inv_threads s HI _ _ Hi) as Hok. unfold thread_ok in Hok. simpl in Hok.
  destruct Hok as (sl & Ha & Hc & Hre). by exists sl.
Qed.

Lemma got_same_slot s i i' key key' timeout timeout' a v e v' e' :
  Inv s ->
  threads s !! i = Some (TGet key timeout (GGot a v e)) ->
  threads s !! i' = Some (TGet key' timeout' (GGot a v' e')) ->
  (v, e) = (v', e').
Proof.
  intros HI Hi Hi'.
  destruct (got_slot _ _ _ _ _ _ _ HI Hi) as (sl & Ha & _ & Hre).
  destruct (got_slot _ _ _ _ _ _ _ HI Hi') as (sl' & Ha' & _ & Hre').
  congruence.
Qed.

(** *** A key reserved once *)

(** Where a statement of [GetWithTimeout] takes its slot from: the store,
    at the lookup, and from then on the slot it already holds. *)
Lemma get_step_addr m key timeout pc m' (t' : thread K V) :
  thread_step m (TGet key timeout pc) = Some (m', t') ->
  exists pc',
    t' = TGet key timeout pc' /\
    (forall k, lru_Peek (cache (cch m')) k = lru_Peek (cache (cch m)) k) /\
    (forall a, get_addr pc' = Some a ->
               get_addr pc = Some a \/ lru_Peek (cache (cch m)) key = Some a).
Proof.
  intros Hstep. destruct pc as [|a|a|a|a dl|a|?|? ? ?]; simpl in Hstep; try done.
  - pose proof (getEntry_fst (cch m) key) as Hfst.
    pose proof (getEntry_cache (cch m) key) as Hcache.
    destruct (getEntry (cch m) key) as [entity cc]; simpl in *.
    injection Hstep as <- <-. eexists. split; [done|]. split.
    + intros k. simpl. rewrite Hcache. apply lru_Get_peek.
    + intros b Hb. right. destruct entity; simpl in Hb; congruence.
  - destruct (heap m !! a) as [sl|]; [|done]. simpl in Hstep. injection Hstep as <- <-.
    eexists. split; [done|]. split; [done|].
    intros b Hb. left. by destruct (Expired _ _).
  - destruct (heap m !! a) as [sl|]; [|done]. simpl in Hstep. injection Hstep as <- <-.
    eexists. split; [done|]. split; [done|].
    intros b Hb. left. destruct (lock (ent sl)); [|done]. by destruct (timeout <? 0).
  - destruct (heap m !! a) as [sl|]; [|done]. simpl in Hstep.
    destruct (closed sl); [|done]. injection Hstep as <- <-.
    eexists. split; [done|]. split; [done|]. intros b Hb. by left.
  - destruct (heap m !! a) as [sl|]; [|done]. simpl in Hstep.
    destruct (closed sl); [|done]. injection Hstep as <- <-.
    eexists. split; [done|]. split; [done|]. intros b Hb. by left.
  - destruct (heap m !! a) as [sl|]; [|done]. simpl in Hstep. injection Hstep as <- <-.
    eexists. split; [done|]. split; [done|]. intros b Hb. by left.
Qed.

(** What an action other than a reservation of [key] does to the slots
    held for [key]: the store keeps or loses its slot, and a reader of [key]
    holds a slot it held before or one the store had. *)
Lemma fire_key_slots act s s' key :
  fire act s = Some s' -> reserves_key key act = false ->
  (forall a, lru_Peek (cache (cch (mach s'))) key = Some a ->
             lru_Peek (cache (cch (mach s))) key = Some a) /\
  (forall i timeout pc a,
     threads s' !! i = Some (TGet key timeout pc) -> get_addr pc = Some a ->
     lru_Peek (cache (cch (mach s))) key = Some a \/
     exists pc0, threads s !! i = Some (TGet key timeout pc0) /\ get_addr pc0 = Some a).
Proof.
  intros Hfire Hnr. destruct act as [d|k timeout|k lt|f entity e|i|i]; simpl in Hfire.
  - destruct (0 <? d); [|done]. injection Hfire as <-. simpl. split; [done|]. eauto.
  - injection Hfire as <-. simpl. split; [done|].
    intros i t pc a [Hi|Hi]%lookup_snoc_inv Ha; [eauto|].
    injection Hi as -> -> ->. done.
  - injection Hfire as <-. simpl in *. apply bool_decide_eq_false in Hnr. split.
    + intros c. by apply lru_Add_peek_ne.
    + eauto.
  - destruct (heap (mach s) !! f); [|done]. injection Hfire as <-. simpl. split; [done|].
    intros i t pc a [Hi|Hi]%lookup_snoc_inv Ha; [eauto|done].
  - destruct (threads s !! i) as [t|] eqn:Hi; [|done]. simpl in Hfire.
    destruct (thread_step (mach s) t) as [[m' t']|] eqn:Hstep; [|done].
    simpl in Hfire. injection Hfire as <-. simpl.
    destruct t as [k timeout pc|f entity e pc].
    + apply get_step_addr in Hstep as (pc' & -> & Hpeek & Haddr). split.
      * intros a. by rewrite Hpeek.
      * intros j t pc1 a [(<- & Heq & _)|[_ Hj]]%list_lookup_insert_Some Ha; [|eauto].
        injection Heq as <- <- <-. destruct (Haddr _ Ha); eauto.
    + simpl in Hstep. destruct (heap (mach s) !! f) as [sl|]; [|done]. simpl in Hstep.
      destruct (resolve_step _ _ _ _ _) as [[sl' pc']|]; [|done].
      simpl in Hstep. injection Hstep as <- <-. simpl. split; [done|].
      intros j t pc1 a [(_ & Heq & _)|[_ Hj]]%list_lookup_insert_Some Ha; [done|eauto].
  - destruct (threads s !! i) as [t|] eqn:Hi; [|done]. simpl in Hfire.
    destruct (thread_timeout (mach s) t) as [t'|] eqn:Hto; [|done].
    simpl in Hfire. injection Hfire as <-. simpl. split; [done|].
    destruct t as [k timeout pc|]; [|done].
    destruct pc as [|?|?|?|a0 dl|?|?|? ? ?]; try done. simpl in Hto.
    destruct (_ <=? _); [|done]. injection Hto as <-.
    intros j t pc1 a [(_ & Heq & _)|[_ Hj]]%list_lookup_insert_Some Ha; [|eauto].
    by injection Heq as <- <- <-.
Qed.

Lemma fires_key_unreserved acts s s' key :
  fires acts s = Some s' ->
  forallb (fun act => negb (reserves_key key act)) acts = true ->
  key_unreserved s key -> key_unreserved s' key.
Proof.
  revert s. induction acts as [|act acts IH]; intros s Hf Hn Hk; simpl in *.
  - by injection Hf as <-.
  - destruct (fire act s) as [s1|] eqn:Hact; [|done].
    apply andb_prop in Hn as [Hn1%negb_true_iff Hn].
    apply (IH s1 Hf Hn). destruct Hk as [Hst Hth].
    destruct (fire_key_slots _ _ _ key Hact Hn1) as [Hst1 Hth1]. split.
    + apply eq_None_not_Some. intros [a Ha]. apply Hst1 in Ha. congruence.
    + intros i t pc Hi. destruct (get_addr pc) as [a|] eqn:Ha; [|done].
      destruct (Hth1 _ _ _ _ Hi Ha) as [?|(pc0 & Hi0 & Ha0)]; [congruence|].
      apply Hth in Hi0. congruence.
Qed.

Lemma fires_key_bound acts s s' key a0 :
  fires acts s = Some s' ->
  forallb (fun act => negb (reserves_key key act)) acts = true ->
  key_bound s key a0 -> key_bound s' key a0.
Proof.
  revert s. induction acts as [|act acts IH]; intros s Hf Hn Hk; simpl in *.
  - by injection Hf as <-.
  - destruct (fire act s) as [s1|] eqn:Hact; [|done].
    apply andb_prop in Hn as [Hn1%negb_true_iff Hn].
    apply (IH s1 Hf Hn). destruct Hk as [Hst Hth].
    destruct (fire_key_slots _ _ _ key Hact Hn1) as [Hst1 Hth1]. split.
    + intros a Ha. apply Hst, Hst1, Ha.
    + intros i t pc a Hi Ha.
      destruct (Hth1 _ _ _ _ Hi Ha) as [?|(pc0 & Hi0 & Ha0)]; eauto.
Qed.

(** When [key] is reserved once, every reader of [key] that holds a slot
    holds the slot of that reservation, so all callers of [Get] on [key] that
    return from a wait return the same: what the one producer supplied. *)
Lemma key_reserved_once_waiters_agree t0 os m0 acts1 s1 key lt s1' acts2 s2 :
  boot t0 os = Some m0 ->
  fires acts1 (start m0) = Some s1 ->
  forallb (fun act => negb (reserves_key key act)) acts1 = true ->
  fire (CallRWL key lt) s1 = Some s1' ->
  fires acts2 s1' = Some s2 ->
  forallb (fun act => negb (reserves_key key act)) acts2 = true ->
  forall i i' timeout timeout' a b v e v' e',
    threads s2 !! i = Some (TGet key timeout (GGot a v e)) ->
    threads s2 !! i' = Some (TGet key timeout' (GGot b v' e')) ->
    a = length (heap (mach s1)) /\ b = a /\ (v, e) = (v', e').
Proof.
  intros Hboot H1 Hn1 Hres H2 Hn2 i i' timeout timeout' a b v e v' e' Hi Hi'.
  assert (key_unreserved (start m0) key) as Hk0.
  { unfold boot, New, lru_New in Hboot. destruct (_ <=? 0); [done|].
    injection Hboot as <-. split; [done|]. intros j t pc Hj. simpl in Hj.
    by rewrite lookup_nil in Hj. }
  pose proof (fires_key_unreserved _ _ _ _ H1 Hn1 Hk0) as [Hst Hth].
  assert (key_bound s1' key (length (heap (mach s1)))) as Hb.
  { simpl in Hres. injection Hres as <-. split; simpl.
    - intros c. apply lru_Add_peek_eq.
    - intros j t pc c Hj Hc. apply Hth in Hj. congruence. }
  pose proof (fires_key_bound _ _ _ _ _ H2 Hn2 Hb) as [_ Hth2].
  pose proof (Hth2 _ _ _ _ Hi eq_refl) as ->.
  pose proof (Hth2 _ _ _ _ Hi' eq_refl) as ->.
  split; [done|]. split; [done|].
  assert (Inv s2) as HI.
  { eapply fires_Inv; [|exact H2]. eapply fire_Inv; [|exact Hres].
    by eapply reachable_Inv. }
  by eapply got_same_slot.
Qed.

(** What a caller reads behind a closed channel is what the winning call
    of the resolve closure was given. *)
Lemma closed_slot_read s a sl :
  Inv s -> heap (mach s) !! a = Some sl -> closed sl = true ->
  exists j entity er pc,
    threads s !! j = Some (TResolve a entity er pc) /\ won pc = true /\
    Return (read_entry (ent sl)).1 (read_entry (ent sl)).2 = delivered entity er.
Proof.
  intros HI Ha Hc.
  destruct (closed_slot_resolution s a sl HI Ha Hc)
    as (j & entity & er & pc & Hj & Hw & Hv & He).
  exists j, entity, er, pc. split; [done|]. split; [done|].
  unfold read_entry, delivered. rewrite Hv, He. by destruct er.
Qed.

(** C1, as the code has it: single flight per reservation.  In every
    state that concurrent callers can reach,
    - a caller blocked in the receive on a slot whose channel is open (so on
      every slot not yet resolved) can take no step: it waits for the
      close in the resolve closure;
    - once the channel is closed such a caller runs on and returns what the
      resolve closure of the slot was called with: the value if the error is
      nil, else the zero value and the error;
    - a caller that has returned from a slot has returned just that;
    - at most one call of the resolve closure of a slot passes its guard;
    - so all callers that return from one slot return the same.
    Nothing is said per key: a key may have several reservations. *)
Theorem waiters_of_a_slot_agree t0 os m0 acts s :
  boot t0 os = Some m0 ->
  fires acts (start m0) = Some s ->
  (forall i key timeout a sl,
     threads s !! i = Some (TGet key timeout (GRecv a)) ->
     heap (mach s) !! a = Some sl ->
     reserved sl = false \/ closed sl = false ->
     fire (Run i) s = None /\ fire (Timer i) s = None)
  /\ (forall i key timeout a sl,
        threads s !! i = Some (TGet key timeout (GRecv a)) ->
        heap (mach s) !! a = Some sl ->
        closed sl = true ->
        exists s' v e j entity er pc,
          fires [Run i; Run i] s = Some s' /\
          threads s' !! i = Some (TGet key timeout (GGot a v e)) /\
          threads s !! j = Some (TResolve a entity er pc) /\ won pc = true /\
          Return v e = delivered entity er)
  /\ (forall i key timeout a v e,
        threads s !! i = Some (TGet key timeout (GGot a v e)) ->
        exists j entity er pc,
          threads s !! j = Some (TResolve a entity er pc) /\ won pc = true /\
          Return v e = delivered entity er)
  /\ (forall j j' a entity er pc entity' er' pc',
        threads s !! j = Some (TResolve a entity er pc) -> won pc = true ->
        threads s !! j' = Some (TResolve a entity' er' pc') -> won pc' = true ->
        j = j')
  /\ (forall i i' key key' timeout timeout' a v e v' e',
        threads s !! i = Some (TGet key timeout (GGot a v e)) ->
        threads s !! i' = Some (TGet key' timeout' (GGot a v' e')) ->
        (v, e) = (v', e')).
Proof.
  intros Hboot Hfires. pose proof (reachable_Inv _ _ _ _ _ Hboot Hfires) as HI.
  split; [|split; [|split; [|split]]].
  - intros i key timeout a sl Hi Ha Hopen.
    assert (closed sl = false) as Hc.
    { destruct Hopen as [Hr|?]; [|done].
      destruct (inv_slots s HI _ _ Ha) as [Hp _]. by destruct (Hp Hr). }
    simpl. rewrite Hi. simpl. rewrite Ha. simpl. by rewrite Hc.
  - intros i key timeout a sl Hi Ha Hc.
    destruct (closed_slot_read s a sl HI Ha Hc) as (j & entity & er & pc & Hj & Hw & Hd).
    assert (i < length (threads s))%nat as Hlen by (by eapply lookup_lt_Some).
    eexists. exists (read_entry (ent sl)).1, (read_entry (ent sl)).2, j, entity, er, pc.
    split; [|split; [|done]].
    + erewrite fires_step; [|simpl; rewrite Hi; simpl; rewrite Ha; simpl; by rewrite Hc].
      erewrite fires_step; [done|]. simpl.
      rewrite list_lookup_insert_eq by done. simpl. by rewrite Ha.
    + simpl. rewrite list_insert_insert_eq. by apply list_lookup_insert_eq.
  - intros i key timeout a v e Hi.
    destruct (got_slot _ _ _ _ _ _ _ HI Hi) as (sl & Ha & Hc & Hre).
    destruct (closed_slot_read s a sl HI Ha Hc) as (j & entity & er & pc & Hj & Hw & Hd).
    exists j, entity, er, pc. split; [done|]. split; [done|]. by rewrite Hre in Hd.
  - intros j j' a entity er pc entity' er' pc' Hj Hw Hj' Hw'.
    eapply (inv_winner s HI); [exact Hj|exact Hj'|done|done].
  - intros i i' key key' timeout timeout' a v e v' e' Hi Hi'. by eapply got_same_slot.
Qed.
End ConcurrentFacts.

(** C1, as stated, fails: the cache does not designate one producer per
    key.  Two callers that look up ["k"] together are both told
    [ErrEntryNotFound] and both reserve it; the two reservations are pending
    together, each has a waiter blocked on it, and each waiter returns the
    value of its own reservation. *)
Lemma waiters_of_a_key_disagree :
  exists (m0 : machine string string) s1 s2,
    boot 1 [] = Some m0 /\
    fires two_reservations (start m0) = Some s1 /\
    fires two_resolutions s1 = Some s2 /\
    threads s1 !! 0%nat = Some (TGet "k" (-1) (GFail ErrEntryNotFound)) /\
    threads s1 !! 1%nat = Some (TGet "k" (-1) (GFail ErrEntryNotFound)) /\
    threads s1 !! 2%nat = Some (TGet "k" (-1) (GRecv 0%nat)) /\ pending s1 0%nat /\
    threads s1 !! 3%nat = Some (TGet "k" (-1) (GRecv 1%nat)) /\ pending s1 1%nat /\
    threads s2 !! 2%nat = Some (TGet "k" (-1) (GGot 0%nat "v1" None)) /\
    threads s2 !! 3%nat = Some (TGet "k" (-1) (GGot 1%nat "v2" None)) /\
    ~ waiters_agree_per_key (start m0).
Proof.
  eexists. do 2 eexists.
  split; [reflexivity|].
  split; [vm_compute; reflexivity|].
  split; [vm_compute; reflexivity|].
  assert (forall a : nat, a = 0%nat \/ a = 1%nat ->
            pending (V := string) (K := string)
              {| mach := {| cch := {| cache := {| lru_size := 1024;
                                                  lru_items := [("k", 1%nat)] |};
                                      opts := {| opt_size := 1024; opt_withStats := false;
                                                 opt_defaultLifetime := -1 |};
                                      stats := {| Hits := 0; Misses := 0 |} |};
                            heap := [ {| ent := {| lock := Some Chan; value := "";
                                                   err := None; expireAt := 0 |};
                                         closed := false; mux := false;
                                         reserved := false; lifetime := -1 |};
                                      {| ent := {| lock := Some Chan; value := "";
                                                   err := None; expireAt := 0 |};
                                         closed := false; mux := false;
                                         reserved := false; lifetime := -1 |} ];
                            clock := 1 |};
                 threads := [ TGet "k" (-1) (GFail ErrEntryNotFound);
                              TGet "k" (-1) (GFail ErrEntryNotFound);
                              TGet "k" (-1) (GRecv 0%nat);
                              TGet "k" (-1) (GRecv 1%nat) ] |} a) as Hpending.
  { intros a [-> | ->]; eexists; split; reflexivity. }
  split; [reflexivity|]. split; [reflexivity|].
  split; [reflexivity|]. split; [apply Hpending; by left|].
  split; [reflexivity|]. split; [apply Hpending; by right|].
  split; [reflexivity|]. split; [reflexivity|].
  intros Hagree.
  assert (("v1", None) = ("v2", @None error)) as Heq; [|discriminate Heq].
  eapply (Hagree two_reservations two_resolutions _ _ "k" 2%nat 3%nat 0%nat 1%nat);
    [vm_compute; reflexivity|vm_compute; reflexivity
    |reflexivity|apply Hpending; by left|reflexivity|apply Hpending; by right
    |reflexivity|reflexivity].
Qed.

(** ** The scenario of [TestWithSize] and instances of the theorems *)

(** C7: with capacity 5, after ["1"] to ["5"] are reserved and resolved
    [Len] is 5; reserving and resolving ["6"] evicts ["1"] ([Get] answers
    [ErrEntryNotFound]) and [Len] stays 5; after a successful [Get] of ["2"],
    reserving and resolving ["7"] evicts ["3"] and ["2"] is still returned
    with its value, whereas without that [Get] it is ["2"] that goes. *)
Theorem with_size_scenario (t0 : Time) :
  exists m5 m6 m7 m7',
    with_size_five t0 = Some m5 /\ Len m5 = 5 /\
    reserve_resolve "6" "value5" m5 = Some m6 /\ Len m6 = 5 /\
    (Get "1" m6).1 = Return "" (Some ErrEntryNotFound) /\
    (Get "2" (Get "1" m6).2).1 = Return "value2" None /\
    reserve_resolve "7" "value5" (Get "2" (Get "1" m6).2).2 = Some m7 /\
    Len m7 = 5 /\
    (Get "3" m7).1 = Return "" (Some ErrEntryNotFound) /\
    (Get "2" (Get "3" m7).2).1 = Return "value2" None /\
    reserve_resolve "7" "value5" (Get "1" m6).2 = Some m7' /\
    (Get "2" m7').1 = Return "" (Some ErrEntryNotFound) /\
    (Get "3" m7').1 = Return "value3" None.
Proof.
  do 4 eexists.
  split; [vm_compute; reflexivity|].
  split; [vm_compute; reflexivity|].
  split; [vm_compute; reflexivity|].
  split; [vm_compute; reflexivity|].
  split; [vm_compute; reflexivity|].
  split; [vm_compute; reflexivity|].
  split; [vm_compute; reflexivity|].
  split; [vm_compute; reflexivity|].
  split; [vm_compute; reflexivity|].
  split; [vm_compute; reflexivity|].
  split; [vm_compute; reflexivity|].
  split; vm_compute; reflexivity.
Qed.

(** [New] with a size option of zero, among other options. *)
Lemma New_defaults_and_size_witness :
  0 <= 0 /\ New (K := string) ([WithStats] ++ WithSize 0 :: [WithDefaultLifetime 5]) = None.
Proof.
  split; [lia|].
  apply (proj2 (New_defaults_and_size (K := string)) [WithStats] 0 [WithDefaultLifetime 5]);
    [lia|reflexivity].
Defined.

(** A second call of the closure of ["k"], after a [Get] and a sleep. *)
Lemma second_resolve_panics_witness :
  let m2 := after (fresh []) (run [CallGet "k"; CallSleep 5] (resolved_k [] 30 None)) in
  resolve 0%nat "w" (Some ErrExpired) m2 = Panicked "already reserved"
  /\ exec (CallResolve 0%nat "w" (Some ErrExpired)) m2 = Some m2
  /\ exists sl, heap m2 !! 0%nat = Some sl /\ value (ent sl) = "v" /\ err (ent sl) = None.
Proof.
  apply (second_resolve_panics (reserved_k [] 30) 0%nat "v" None (resolved_k [] 30 None)
           [CallGet "k"; CallSleep 5]); reflexivity.
Defined.

(** ["k"] resolved at clock 1 with lifetime 30 is delivered at clock 31 and
    expired at clock 32; resolved with lifetime -1 it is delivered then
    too. *)
Lemma lifetime_decides_expiry_witness :
  (Get "k" (slept 30 (resolved_k [] 30 None))).1 = Return "v" None
  /\ (Get "k" (slept 31 (resolved_k [] 30 None))).1 = Return "" (Some ErrExpired)
  /\ (Get "k" (slept 31 (resolved_k [] (-1) None))).1 = Return "v" None.
Proof.
  split; [|split].
  - pose proof (lifetime_decides_expiry 1 [] (fresh []) [CallReserveWithLifetime "k" 30]
                  (reserved_k [] 30) 0%nat "v" None (resolved_k [] 30 None) [CallSleep 30]
                  (slept 30 (resolved_k [] 30 None)) "k" (-1)
                  {| ent := {| lock := Some Chan; value := ""; err := None; expireAt := 0 |};
                     closed := false; mux := false; reserved := false; lifetime := 30 |}
                  eq_refl eq_refl eq_refl eq_refl eq_refl eq_refl eq_refl) as (_ & Hin & _ & _).
    apply Hin; vm_compute; discriminate.
  - pose proof (lifetime_decides_expiry 1 [] (fresh []) [CallReserveWithLifetime "k" 30]
                  (reserved_k [] 30) 0%nat "v" None (resolved_k [] 30 None) [CallSleep 31]
                  (slept 31 (resolved_k [] 30 None)) "k" (-1)
                  {| ent := {| lock := Some Chan; value := ""; err := None; expireAt := 0 |};
                     closed := false; mux := false; reserved := false; lifetime := 30 |}
                  eq_refl eq_refl eq_refl eq_refl eq_refl eq_refl eq_refl) as (_ & _ & Hout & _).
    apply Hout; [vm_compute; discriminate|reflexivity].
  - pose proof (lifetime_decides_expiry 1 [] (fresh []) [CallReserveWithLifetime "k" (-1)]
                  (reserved_k [] (-1)) 0%nat "v" None (resolved_k [] (-1) None) [CallSleep 31]
                  (slept 31 (resolved_k [] (-1) None)) "k" (-1)
                  {| ent := {| lock := Some Chan; value := ""; err := None; expireAt := 0 |};
                     closed := false; mux := false; reserved := false; lifetime := -1 |}
                  eq_refl eq_refl eq_refl eq_refl eq_refl eq_refl eq_refl) as (_ & _ & _ & Hneg).
    apply Hneg. reflexivity.
Defined.

(** With statistics on: a [Get] of ["k"], resolved with lifetime 0 one
    nanosecond ago, is a hit and answers [ErrExpired]. *)
Lemma present_key_is_a_hit_witness :
  let m := slept 1 (resolved_k [WithStats] 0 None) in
  stored m "k" = Some 0%nat
  /\ Hits (stats (cch (GetWithTimeout "k" (-1) m).2)) = 1
  /\ Misses (stats (cch (GetWithTimeout "k" (-1) m).2)) = 0
  /\ (GetWithTimeout "k" (-1) m).1 = Return "" (Some ErrExpired)
  /\ clock (GetWithTimeout "k" (-1) m).2 = clock m.
Proof.
  intros m.
  pose proof (present_key_is_a_hit m "k" (-1) 0%nat eq_refl) as (Hon & _ & Hexp).
  destruct (Hon eq_refl) as [Hh Hm].
  destruct (Hexp {| ent := {| lock := None; value := "v"; err := None; expireAt := 1 |};
                    closed := true; mux := false; reserved := true; lifetime := 0 |}
              eq_refl eq_refl) as (Hr & Hc & _).
  split; [reflexivity|]. split; [exact Hh|]. split; [exact Hm|]. split; [exact Hr|exact Hc].
Defined.

(** With statistics on: a [Get] of a key of a fresh cache is a miss. *)
Lemma absent_key_is_a_miss_witness :
  stored (fresh [WithStats]) "k" = None
  /\ (Get "k" (fresh [WithStats])).1 = Return "" (Some ErrEntryNotFound)
  /\ Misses (stats (cch (GetWithTimeout "k" 5 (fresh [WithStats])).2)) = 1
  /\ Hits (stats (cch (GetWithTimeout "k" 5 (fresh [WithStats])).2)) = 0.
Proof.
  pose proof (absent_key_is_a_miss (fresh [WithStats]) "k" 5 eq_refl)
    as (_ & Hg & Hon & _).
  destruct (Hon eq_refl) as [Hm Hh].
  split; [reflexivity|]. split; [exact Hg|]. split; [exact Hm|exact Hh].
Defined.

(** A poll of ["k"] three nanoseconds after its reservation, and one after
    its resolution. *)
Lemma zero_timeout_polls_witness :
  let m2 := slept 3 (reserved_k [] 30) in
  ((GetWithTimeout "k" 0 m2).1 = Return "" (Some ErrGetCacheTimeout)
   /\ clock (GetWithTimeout "k" 0 m2).2 = clock m2
   /\ heap (GetWithTimeout "k" 0 m2).2 = heap m2
   /\ stored (GetWithTimeout "k" 0 m2).2 "k" = Some 0%nat)
  /\ (GetWithTimeout "k" 0 (slept 9 (after m2 (exec (CallResolve 0%nat "v" None) m2)))).1
     = Return "v" None.
Proof.
  intros m2.
  pose proof (zero_timeout_polls (fresh []) "k" 30 [CallSleep 3] m2 eq_refl) as Hpoll.
  destruct Hpoll as [(sl & _ & _ & Hpending) Hresolved].
  - by repeat constructor.
  - split; [exact (Hpending "k" eq_refl)|].
    destruct (Hresolved "v" None (after m2 (exec (CallResolve 0%nat "v" None) m2))
                [CallSleep 9]
                (slept 9 (after m2 (exec (CallResolve 0%nat "v" None) m2)))
                eq_refl eq_refl) as (sl4 & _ & _ & Hget).
    apply (Hget "k" eq_refl). right. vm_compute. discriminate.
Defined.

(** ["k"] resolved with a value and an error. *)
Lemma error_hides_value_witness :
  exists sl,
    heap (slept 2 (resolved_k [] (-1) (Some (ErrProducer "boom")))) !! 0%nat = Some sl
    /\ value (ent sl) = "v"
    /\ (Get "k" (slept 2 (resolved_k [] (-1) (Some (ErrProducer "boom"))))).1
       = Return "" (Some (ErrProducer "boom")).
Proof.
  destruct (error_hides_value (reserved_k [] (-1)) 0%nat "v" (ErrProducer "boom")
              (resolved_k [] (-1) (Some (ErrProducer "boom"))) [CallSleep 2]
              (slept 2 (resolved_k [] (-1) (Some (ErrProducer "boom"))))
              eq_refl eq_refl) as (sl & Hsl & Hv & _ & _ & _ & Hget).
  exists sl. split; [exact Hsl|]. split; [exact Hv|].
  unfold Get. rewrite (Hget "k" (-1) eq_refl).
  vm_compute in Hsl. injection Hsl as <-. reflexivity.
Defined.

(** ["k"] reserved with lifetime 0 and left alone for an hour. *)
Lemma pending_slot_never_expired_witness :
  exists sl,
    heap (slept 3600000000000 (reserved_k [] 0)) !! 0%nat = Some sl
    /\ expireAt (ent sl) = 0
    /\ (GetWithTimeout "k" 7 (slept 3600000000000 (reserved_k [] 0))).1
       = Return "" (Some ErrGetCacheTimeout).
Proof.
  destruct (pending_slot_never_expired (fresh []) "k" 0 [CallSleep 3600000000000]
              (slept 3600000000000 (reserved_k [] 0)) eq_refl)
    as (sl & Hsl & Hz & _ & Hget).
  - by repeat constructor.
  - exists sl. split; [exact Hsl|]. split; [exact Hz|]. exact (Hget "k" 7 eq_refl).
Defined.

(** One reservation of ["k"], two waiters and one call of the closure,
    interleaved. *)
Lemma waiters_of_a_slot_agree_witness :
  exists s,
    fires one_reservation (start (fresh [])) = Some s
    /\ threads s !! 0%nat = Some (TGet "k" (-1) (GGot 0%nat "v" None))
    /\ threads s !! 1%nat = Some (TGet "k" (-1) (GGot 0%nat "v" None))
    /\ exists j entity er pc,
         threads s !! j = Some (TResolve 0%nat entity er pc) /\ won pc = true /\
         Return "v" None = delivered entity er.
Proof.
  assert (exists s, fires one_reservation (start (fresh [])) = Some s) as [s Hs].
  { eexists. vm_compute. reflexivity. }
  exists s. split; [exact Hs|].
  destruct (waiters_of_a_slot_agree 1 [] (fresh []) one_reservation s eq_refl Hs)
    as (_ & _ & Hgot & _ & _).
  vm_compute in Hs. injection Hs as <-.
  split; [reflexivity|]. split; [reflexivity|].
  apply (Hgot 0%nat "k" (-1)). reflexivity.
Defined.

(** * Further properties of the cache *)

(** ** The store keeps its bound *)

Section StoreBound.
Context {K : Type} `{EqDecision K} {A : Type}.
Implicit Types (l : list (K * A)).

Lemma remove_key_keys key l k : k ∈ (remove_key key l).*1 <-> k <> key /\ k ∈ l.*1.
Proof.
  induction l as [|[k' w] l IH]; simpl.
  - split; [by intros ?%not_elem_of_nil|by intros [_ ?%not_elem_of_nil]].
  - destruct (decide (k' = key)) as [->|Hne]; simpl; rewrite ?elem_of_cons, IH.
    + split; [tauto|]. intros [? [?|?]]; [congruence|done].
    + split; [intros [->|[? ?]]; auto|]. intros [? [?|?]]; auto.
Qed.

Lemma remove_key_NoDup key l : NoDup l.*1 -> NoDup (remove_key key l).*1.
Proof.
  induction l as [|[k' w] l IH]; simpl; [done|].
  rewrite NoDup_cons. intros [Hk Hl]. destruct (decide (k' = key)); simpl; [auto|].
  rewrite NoDup_cons. split; [|auto]. rewrite remove_key_keys. tauto.
Qed.

Lemma remove_key_absent key l : assoc key l = None -> remove_key key l = l.
Proof.
  induction l as [|[k' w] l IH]; simpl; [done|].
  destruct (decide (k' = key)); [done|]. intros ?. f_equal. auto.
Qed.

Lemma remove_key_length key l v :
  NoDup l.*1 -> assoc key l = Some v -> S (length (remove_key key l)) = length l.
Proof.
  induction l as [|[k' w] l IH]; simpl; [done|].
  rewrite NoDup_cons. intros [Hk Hl]. destruct (decide (k' = key)) as [->|Hne].
  - intros _. rewrite remove_key_absent; [done|]. by apply assoc_None_keys.
  - intros Hv. simpl. f_equal. auto.
Qed.
End StoreBound.

Section StoreOk.
Context {K : Type} `{EqDecision K}.
Implicit Types (c : LRU K nat).

Lemma lru_New_ok size c : lru_New (K := K) (A := nat) size = Some c ->
  store_ok c /\ lru_size c = size /\ lru_items c = [].
Proof.
  unfold lru_New. destruct (Z.leb_spec size 0); [done|]. intros [= <-].
  split; [|done]. split; [done|]. split; [unfold lru_Len; simpl; lia|]. simpl. constructor.
Qed.

Lemma lru_Add_ok c key a : store_ok c -> store_ok (lru_Add c key a).
Proof.
  intros (Hsz & Hlen & Hnd). unfold lru_Add, store_ok, lru_Len in *.
  destruct (assoc key (lru_items c)) as [w|] eqn:Hw; simpl.
  - split; [done|]. pose proof (remove_key_length _ _ _ Hnd Hw). split; [lia|].
    rewrite NoDup_cons. split; [|by apply remove_key_NoDup].
    rewrite remove_key_keys. tauto.
  - split; [done|].
    assert (NoDup ((key, a) :: lru_items c).*1) as Hnd'.
    { simpl. rewrite NoDup_cons. split; [by apply assoc_None_keys|done]. }
    destruct (Z.ltb_spec (lru_size c) (Z.of_nat (S (length (lru_items c))))).
    + unfold remove_oldest. rewrite fmap_take, length_take. split; [simpl; lia|].
      eapply sublist_NoDup; [exact Hnd'|apply sublist_take].
    + split; [simpl; lia|done].
Qed.

Lemma lru_Get_ok c key :
  store_ok c -> store_ok (lru_Get c key).2 /\ lru_Len (lru_Get c key).2 = lru_Len c.
Proof.
  intros (Hsz & Hlen & Hnd). unfold lru_Get, store_ok, lru_Len in *.
  destruct (assoc key (lru_items c)) as [w|] eqn:Hw; simpl; [|done].
  pose proof (remove_key_length _ _ _ Hnd Hw).
  split; [|lia]. split; [done|]. split; [lia|].
  rewrite NoDup_cons. split; [|by apply remove_key_NoDup].
  rewrite remove_key_keys. tauto.
Qed.

(** An insertion adds at most one slot and none when the key is there. *)
Lemma lru_Add_Len c key a :
  store_ok c ->
  lru_Len (lru_Add c key a) =
    match lru_Peek c key with
    | Some _ => lru_Len c
    | None => if lru_Len c <? lru_size c then lru_Len c + 1 else lru_Len c
    end.
Proof.
  intros (Hsz & Hlen & Hnd). unfold lru_Add, lru_Peek, lru_Len in *.
  destruct (assoc key (lru_items c)) as [w|] eqn:Hw; simpl.
  - pose proof (remove_key_length _ _ _ Hnd Hw). lia.
  - destruct (Z.ltb_spec (lru_size c) (Z.of_nat (S (length (lru_items c)))));
      destruct (Z.ltb_spec (Z.of_nat (length (lru_items c))) (lru_size c)); try lia.
    + unfold remove_oldest. rewrite length_take. simpl. lia.
    + simpl. lia.
Qed.
End StoreOk.

(** ** Configuration *)

Lemma foldl_Apply_configures os o :
  foldl (fun acc w => Apply w acc) o os =
    {| opt_size := size_of os (opt_size o);
       opt_withStats := stats_of os (opt_withStats o);
       opt_defaultLifetime := lifetime_of os (opt_defaultLifetime o) |}.
Proof.
  revert o. induction os as [|w os IH]; intros o; simpl; [by destruct o|].
  rewrite IH. by destruct w.
Qed.

Section MoreCacheFacts.
Context {K : Type} `{EqDecision K} {V : Type} `{Zero V}.
Implicit Types (m : machine K V) (sl : slot V) (c : call K V)
  (cs : list (call K V)) (key : K).

(** X1: what [New] returns is decided by the options one kind at a time:
    the last size given (1024 if none), the last default lifetime given (-1
    if none), statistics if any option asks for them.  It is an error when
    that size is not positive, and an empty cache with zero counters
    otherwise. *)
Theorem New_configured os :
  New (K := K) os =
    if size_of os DefaultSize <=? 0 then None
    else Some {| cache := {| lru_size := size_of os DefaultSize; lru_items := [] |};
                 opts := {| opt_size := size_of os DefaultSize;
                            opt_withStats := stats_of os false;
                            opt_defaultLifetime := lifetime_of os (-1) |};
                 stats := {| Hits := 0; Misses := 0 |} |}.
Proof.
  unfold New. rewrite foldl_Apply_configures. simpl. unfold lru_New.
  by destruct (_ <=? 0).
Qed.

Lemma GetWithTimeout_cache key timeout m :
  cache (cch (GetWithTimeout key timeout m).2) = (lru_Get (cache (cch m)) key).2.
Proof.
  unfold GetWithTimeout. pose proof (getEntry_cache (cch m) key) as Hc.
  destruct (getEntry (cch m) key) as [[b|] cc]; simpl in Hc; [|done].
  destruct (heap m !! b) as [sl|]; [|done].
  destruct (Expired _ _); [done|]. by destruct (getWithTimeout sl timeout).
Qed.

Lemma GetWithTimeout_stats key timeout m :
  stats (cch (GetWithTimeout key timeout m).2) = stats (getEntry (cch m) key).2.
Proof.
  unfold GetWithTimeout. destruct (getEntry (cch m) key) as [[b|] cc]; [|done].
  destruct (heap m !! b) as [sl|]; [|done].
  destruct (Expired _ _); [done|]. by destruct (getWithTimeout sl timeout).
Qed.

(** The configuration and the capacity of the store never change, and the
    store keeps its bound. *)
Lemma exec_config c m m' :
  exec c m = Some m' ->
  opts (cch m') = opts (cch m) /\
  lru_size (cache (cch m')) = lru_size (cache (cch m)) /\
  (store_ok (cache (cch m)) -> store_ok (cache (cch m'))).
Proof.
  assert (forall key timeout,
            opts (cch (GetWithTimeout key timeout m).2) = opts (cch m) /\
            lru_size (cache (cch (GetWithTimeout key timeout m).2)) =
              lru_size (cache (cch m)) /\
            (store_ok (cache (cch m)) ->
             store_ok (cache (cch (GetWithTimeout key timeout m).2)))) as Hget.
  { intros key timeout. split; [apply GetWithTimeout_opts|].
    rewrite GetWithTimeout_cache. split.
    - unfold lru_Get. by destruct (assoc key _).
    - intros Hok. by apply lru_Get_ok. }
  assert (forall key lt,
            lru_size (cache (cch (ReserveWithLifetime key lt m).2)) =
              lru_size (cache (cch m))) as Hsz.
  { intros key lt. simpl. unfold lru_Add. by destruct (assoc key _). }
  intros Hc. destruct c as [key|key t|key|key lt|g entity e|d]; simpl in Hc.
  - apply returned_Some in Hc as ->. apply Hget.
  - apply returned_Some in Hc as ->. apply Hget.
  - injection Hc as <-. split; [done|]. split; [apply Hsz|]. apply lru_Add_ok.
  - injection Hc as <-. split; [done|]. split; [apply Hsz|]. apply lru_Add_ok.
  - destruct (resolve g entity e m) as [m1| | |] eqn:Hres; try done.
    + injection Hc as Heq. subst m1.
      apply resolve_Resolved in Hres as (_ & _ & _ & _ & _ & -> & _). done.
    + by injection Hc as <-.
  - by injection Hc as <-.
Qed.

Lemma run_config cs m m' :
  run cs m = Some m' ->
  opts (cch m') = opts (cch m) /\
  lru_size (cache (cch m')) = lru_size (cache (cch m)) /\
  (store_ok (cache (cch m)) -> store_ok (cache (cch m'))).
Proof.
  revert m. induction cs as [|c cs IH]; intros m Hrun; simpl in Hrun.
  - by injection Hrun as <-.
  - destruct (exec c m) as [m1|] eqn:Hc; [|done].
    destruct (exec_config _ _ _ Hc) as (Ho & Hs & Hok).
    destruct (IH _ Hrun) as (Ho' & Hs' & Hok').
    split; [congruence|]. split; [congruence|auto].
Qed.

Lemma boot_config t0 os m0 :
  boot t0 os = Some m0 ->
  opts (cch m0) = {| opt_size := size_of os DefaultSize;
                     opt_withStats := stats_of os false;
                     opt_defaultLifetime := lifetime_of os (-1) |} /\
  lru_size (cache (cch m0)) = size_of os DefaultSize /\
  store_ok (cache (cch m0)) /\ stats (cch m0) = {| Hits := 0; Misses := 0 |}.
Proof.
  unfold boot. rewrite New_configured.
  destruct (Z.leb_spec (size_of os DefaultSize) 0); [done|]. intros [= <-]. simpl.
  split; [done|]. split; [done|]. split; [|done].
  split; [done|]. split; [unfold lru_Len; simpl; lia|constructor].
Qed.

Lemma reachable_config t0 os m0 cs m :
  boot t0 os = Some m0 -> run cs m0 = Some m ->
  opts (cch m) = {| opt_size := size_of os DefaultSize;
                    opt_withStats := stats_of os false;
                    opt_defaultLifetime := lifetime_of os (-1) |} /\
  lru_size (cache (cch m)) = size_of os DefaultSize /\
  store_ok (cache (cch m)).
Proof.
  intros (Ho & Hs & Hok & _)%boot_config (Ho' & Hs' & Hok')%run_config.
  rewrite Ho', Hs'. auto.
Qed.

(** X2: the configuration is fixed at construction.  After any program,
    the options are those given to [New], and [Reserve] is
    [ReserveWithLifetime] with the default lifetime configured then. *)
Theorem configuration_is_fixed t0 os m0 cs m key :
  boot t0 os = Some m0 ->
  run cs m0 = Some m ->
  opts (cch m) = {| opt_size := size_of os DefaultSize;
                    opt_withStats := stats_of os false;
                    opt_defaultLifetime := lifetime_of os (-1) |}
  /\ Reserve key m = ReserveWithLifetime key (lifetime_of os (-1)) m.
Proof.
  intros Hboot Hrun. destruct (reachable_config _ _ _ _ _ Hboot Hrun) as (Ho & _).
  split; [done|]. unfold Reserve. by rewrite Ho.
Qed.

(** X3: the cache never holds more slots than its capacity, and never two
    slots for one key. *)
Theorem Len_within_capacity t0 os m0 cs m :
  boot t0 os = Some m0 ->
  run cs m0 = Some m ->
  0 <= Len m <= size_of os DefaultSize /\ NoDup (lru_items (cache (cch m))).*1.
Proof.
  intros Hboot Hrun.
  destruct (reachable_config _ _ _ _ _ Hboot Hrun) as (_ & Hs & (_ & Hlen & Hnd)).
  unfold Len. rewrite <- Hs. split; [|done]. unfold lru_Len in *. lia.
Qed.

(** X4: only a reservation changes the number of slots: it adds one slot
    when the key is new and there is room, and none when the key is already
    stored or the cache is full (then one slot goes for the one that comes);
    lookups and resolutions leave the number alone. *)
Theorem Len_changes t0 os m0 cs m key lt timeout f entity e m' :
  boot t0 os = Some m0 ->
  run cs m0 = Some m ->
  Len (ReserveWithLifetime key lt m).2 =
    match stored m key with
    | Some _ => Len m
    | None => if Len m <? size_of os DefaultSize then Len m + 1 else Len m
    end
  /\ Len (GetWithTimeout key timeout m).2 = Len m
  /\ (resolve f entity e m = Resolved m' -> Len m' = Len m).
Proof.
  intros Hboot Hrun.
  destruct (reachable_config _ _ _ _ _ Hboot Hrun) as (_ & Hs & Hok).
  split; [|split].
  - unfold Len, stored. simpl. rewrite (lru_Add_Len _ _ _ Hok), Hs. done.
  - unfold Len. rewrite GetWithTimeout_cache. by apply lru_Get_ok.
  - intros (_ & _ & _ & _ & _ & Hcc & _)%resolve_Resolved. unfold Len. by rewrite Hcc.
Qed.

(** X5: a lookup never evicts: whatever [GetWithTimeout] answers, every key
    is stored afterwards as it was before, and no entry is written. *)
Theorem lookup_evicts_nothing m key timeout k :
  stored (GetWithTimeout key timeout m).2 k = stored m k
  /\ heap (GetWithTimeout key timeout m).2 = heap m.
Proof.
  split; [|apply GetWithTimeout_heap].
  unfold stored. rewrite GetWithTimeout_cache. apply lru_Get_peek.
Qed.

Lemma front_survives_Add (c : LRU K nat) key a rest key' f :
  2 <= lru_size c -> lru_items c = (key, a) :: rest -> key' <> key ->
  lru_Peek (lru_Add c key' f) key = Some a.
Proof.
  intros Hsz Hit Hne. unfold lru_Add, lru_Peek. rewrite Hit. simpl.
  rewrite (decide_False (P := key = key')) by congruence.
  destruct (assoc key' rest) as [w|] eqn:Hw; simpl.
  - rewrite (decide_False (P := key = key')) by congruence. simpl.
    rewrite (decide_False (P := key' = key)) by done. by rewrite decide_True.
  - destruct (Z.ltb_spec (lru_size c) (Z.of_nat (S (S (length rest))))).
    + unfold remove_oldest. simpl. destruct rest as [|x rest']; simpl in *; [lia|].
      rewrite (decide_False (P := key' = key)) by done. by rewrite decide_True.
    + simpl. rewrite (decide_False (P := key' = key)) by done. by rewrite decide_True.
Qed.

(** X6: with a capacity of at least two, the key just looked up, whatever
    the answer was, and the key just reserved survive the next reservation
    of another key. *)
Theorem recent_key_survives m key a timeout lt key' lt' :
  2 <= lru_size (cache (cch m)) ->
  key' <> key ->
  (stored m key = Some a ->
     stored (ReserveWithLifetime key' lt' (GetWithTimeout key timeout m).2).2 key = Some a)
  /\ stored (ReserveWithLifetime key' lt'
               (ReserveWithLifetime key lt m).2).2 key = Some (length (heap m)).
Proof.
  intros Hsz Hne. split.
  - intros Hk. unfold stored. simpl. rewrite GetWithTimeout_cache.
    unfold stored, lru_Peek in Hk.
    eapply front_survives_Add; [| |done].
    + unfold lru_Get. by rewrite Hk.
    + unfold lru_Get. rewrite Hk. reflexivity.
  - unfold stored. simpl.
    assert (exists rest, lru_items (lru_Add (cache (cch m)) key (length (heap m))) =
                         (key, length (heap m)) :: rest) as [rest Hit].
    { unfold lru_Add. destruct (assoc key _); simpl; [by eexists|].
      destruct (Z.ltb_spec (lru_size (cache (cch m)))
                  (Z.of_nat (S (length (lru_items (cache (cch m))))))); [|by eexists].
      unfold remove_oldest. simpl. rewrite Nat.sub_0_r.
      destruct (lru_items (cache (cch m))); simpl in *; [lia|by eexists]. }
    eapply front_survives_Add; [|exact Hit|done].
    unfold lru_Add. by destruct (assoc key _).
Qed.

Lemma resolve_pristine lt entity e m f :
  heap m !! f = Some {| ent := {| lock := Some Chan; value := zero; err := None;
                                  expireAt := 0 |};
                        closed := false; mux := false; reserved := false;
                        lifetime := lt |} ->
  exists m2 sl2,
    resolve f entity e m = Resolved m2 /\
    cch m2 = cch m /\ clock m2 = clock m /\
    length (heap m2) = length (heap m) /\
    (forall g, g <> f -> heap m2 !! g = heap m !! g) /\
    heap m2 !! f = Some sl2 /\
    ent sl2 = {| lock := None; value := entity; err := e;
                 expireAt := if 0 <=? lt then Add (clock m) lt else 0 |}.
Proof.
  intros Hf. unfold resolve. rewrite Hf. simpl. do 2 eexists. split; [done|]. simpl.
  split; [done|]. split; [done|]. split; [by rewrite length_insert|].
  split; [intros g Hg; by rewrite list_lookup_insert_ne|].
  split; [apply list_lookup_insert_eq; by eapply lookup_lt_Some|].
  unfold stamp. simpl. by destruct (0 <=? lt).
Qed.



(** X8: a reservation of a key that is already stored replaces its slot.
    The new slot is another one, the number of slots stays, the old slot
    stays on the heap as it is (its closure and its waiters still work), and
    the key now answers for the new slot: a poll times out, even when the old
    slot was resolved. *)
Theorem reserve_replaces t0 os m0 cs m key old lt :
  boot t0 os = Some m0 ->
  run cs m0 = Some m ->
  stored m key = Some old ->
  let f := (ReserveWithLifetime key lt m).1 in
  let m1 := (ReserveWithLifetime key lt m).2 in
  f <> old /\ stored m1 key = Some f /\ Len m1 = Len m /\
  heap m1 !! old = heap m !! old /\ is_Some (heap m !! old) /\
  (GetWithTimeout key 0 m1).1 = Return zero (Some ErrGetCacheTimeout).
Proof.
  intros Hboot Hrun Hk f m1.
  destruct (reachable_config _ _ _ _ _ Hboot Hrun) as (_ & _ & Hok).
  assert (wf m) as Hwf by eauto using run_wf, boot_wf.
  destruct (store_valid _ _ _ Hwf Hk) as [slo Hold].
  assert (stored m1 key = Some f) as Hk1.
  { unfold stored. simpl. apply lru_Add_peek. destruct Hok. lia. }
  split. { subst f. simpl. apply lookup_lt_Some in Hold. lia. }
  split; [done|]. split.
  { unfold Len, m1. simpl. rewrite (lru_Add_Len _ _ _ Hok).
    unfold stored in Hk. by rewrite Hk. }
  split. { subst m1. simpl. rewrite Hold. by apply lookup_app_l_Some. }
  split; [by exists slo|].
  by rewrite (GetWithTimeout_stored _ _ _ _ _ Hk1 (reserve_slot key lt m)).
Qed.

(** X9: the first call of a resolve closure always succeeds, also when its
    key has been evicted or reserved again in the meantime, and it writes its
    own slot only: the store, the counters, the clock and all other slots are
    as before. *)
Theorem first_resolve_succeeds m key lt cs m2 entity e :
  let f := (ReserveWithLifetime key lt m).1 in
  run cs (ReserveWithLifetime key lt m).2 = Some m2 ->
  leaves_unresolved f cs ->
  exists m3,
    resolve f entity e m2 = Resolved m3 /\
    cch m3 = cch m2 /\ clock m3 = clock m2 /\
    length (heap m3) = length (heap m2) /\
    forall g, g <> f -> heap m3 !! g = heap m2 !! g.
Proof.
  intros f Hrun Hun.
  pose proof (reserve_slot key lt m) as Hf. fold f in Hf.
  eapply run_keeps in Hf; [|done|by right].
  destruct (resolve_pristine lt entity e _ _ Hf)
    as (m3 & sl3 & Hres & Hcc & Hck & Hlen & Hframe & _).
  by exists m3.
Qed.

Lemma AddUint32_mod h : AddUint32 (h mod uint32_modulus) 1 = (h + 1) mod uint32_modulus.
Proof. unfold AddUint32. by rewrite Z.add_mod_idemp_l. Qed.

Lemma exec_stats_off c m m' :
  exec c m = Some m' -> opt_withStats (opts (cch m)) = false ->
  stats (cch m') = stats (cch m).
Proof.
  assert (forall key timeout, opt_withStats (opts (cch m)) = false ->
            stats (cch (GetWithTimeout key timeout m).2) = stats (cch m)) as Hget.
  { intros key timeout Hoff. rewrite GetWithTimeout_stats. unfold getEntry.
    destruct (lru_Get _ _). simpl. by rewrite Hoff. }
  intros Hc Hoff. destruct c as [key|key t|key|key lt|g entity e|d]; simpl in Hc.
  - apply returned_Some in Hc as ->. by apply Hget.
  - apply returned_Some in Hc as ->. by apply Hget.
  - by injection Hc as <-.
  - by injection Hc as <-.
  - destruct (resolve g entity e m) as [m1| | |] eqn:Hres; try done.
    + injection Hc as Heq. subst m1.
      apply resolve_Resolved in Hres as (_ & _ & _ & _ & _ & -> & _). done.
    + by injection Hc as <-.
  - by injection Hc as <-.
Qed.

Lemma exec_stats_on c m m' h ms :
  exec c m = Some m' -> opt_withStats (opts (cch m)) = true ->
  0 <= h -> 0 <= ms ->
  stats (cch m) = {| Hits := h mod uint32_modulus; Misses := ms mod uint32_modulus |} ->
  exists h' ms',
    0 <= h' /\ 0 <= ms' /\ h' + ms' = h + ms + (if reads c then 1 else 0) /\
    stats (cch m') = {| Hits := h' mod uint32_modulus; Misses := ms' mod uint32_modulus |}.
Proof.
  assert (forall key timeout, opt_withStats (opts (cch m)) = true ->
            0 <= h -> 0 <= ms ->
            stats (cch m) = {| Hits := h mod uint32_modulus;
                               Misses := ms mod uint32_modulus |} ->
            exists h' ms',
              0 <= h' /\ 0 <= ms' /\ h' + ms' = h + ms + 1 /\
              stats (cch (GetWithTimeout key timeout m).2) =
                {| Hits := h' mod uint32_modulus; Misses := ms' mod uint32_modulus |})
    as Hget.
  { intros key timeout Hon Hh Hms Hst. rewrite GetWithTimeout_stats. unfold getEntry.
    destruct (lru_Get _ _) as [[a|] inner]; simpl; rewrite Hon, Hst; simpl.
    - exists (h + 1), ms. rewrite AddUint32_mod. repeat split; lia.
    - exists h, (ms + 1). rewrite AddUint32_mod. repeat split; lia. }
  intros Hc Hon Hh Hms Hst.
  destruct c as [key|key t|key|key lt|g entity e|d]; simpl in Hc |- *.
  - apply returned_Some in Hc as ->. by apply Hget.
  - apply returned_Some in Hc as ->. by apply Hget.
  - injection Hc as <-. exists h, ms. simpl. repeat split; try lia. done.
  - injection Hc as <-. exists h, ms. simpl. repeat split; try lia. done.
  - destruct (resolve g entity e m) as [m1| | |] eqn:Hres; try done.
    + injection Hc as Heq. subst m1.
      apply resolve_Resolved in Hres as (_ & _ & _ & _ & _ & -> & _).
      exists h, ms. repeat split; try lia. done.
    + injection Hc as <-. exists h, ms. repeat split; try lia. done.
  - injection Hc as <-. exists h, ms. simpl. repeat split; try lia. done.
Qed.

Lemma run_stats_on cs m m' h ms :
  run cs m = Some m' -> opt_withStats (opts (cch m)) = true ->
  0 <= h -> 0 <= ms ->
  stats (cch m) = {| Hits := h mod uint32_modulus; Misses := ms mod uint32_modulus |} ->
  exists h' ms',
    0 <= h' /\ 0 <= ms' /\ h' + ms' = h + ms + count_reads cs /\
    stats (cch m') = {| Hits := h' mod uint32_modulus; Misses := ms' mod uint32_modulus |}.
Proof.
  revert m h ms. induction cs as [|c cs IH]; intros m h ms Hrun Hon Hh Hms Hst;
    simpl in Hrun.
  - injection Hrun as <-. exists h, ms. simpl. repeat split; try lia. done.
  - destruct (exec c m) as [m1|] eqn:Hc; [|done].
    destruct (exec_stats_on _ _ _ _ _ Hc Hon Hh Hms Hst) as (h1 & ms1 & ? & ? & ? & Hst1).
    destruct (exec_config _ _ _ Hc) as (Ho & _).
    destruct (IH m1 h1 ms1 Hrun) as (h' & ms' & ? & ? & ? & Hst'); try done.
    { by rewrite Ho. }
    exists h', ms'. simpl. repeat split; try lia. done.
Qed.

Lemma run_stats_off cs m m' :
  run cs m = Some m' -> opt_withStats (opts (cch m)) = false ->
  stats (cch m') = stats (cch m).
Proof.
  revert m. induction cs as [|c cs IH]; intros m Hrun Hoff; simpl in Hrun.
  - by injection Hrun as <-.
  - destruct (exec c m) as [m1|] eqn:Hc; [|done].
    destruct (exec_config _ _ _ Hc) as (Ho & _).
    rewrite (IH m1 Hrun) by (by rewrite Ho). by eapply exec_stats_off.
Qed.

(** X10: the counters count the lookups.  With statistics on, after a
    program that made [n] calls of [Get] and [GetWithTimeout], [Hits] and
    [Misses] are two numbers that add up to [n], each reduced to a [uint32];
    reservations, resolutions and sleeps are not counted.  With statistics
    off both counters stay zero. *)
Theorem stats_count_lookups t0 os m0 cs m :
  boot t0 os = Some m0 ->
  run cs m0 = Some m ->
  if stats_of os false then
    exists h ms,
      0 <= h /\ 0 <= ms /\ h + ms = count_reads cs /\
      Cache_Stats m = {| Hits := h mod uint32_modulus; Misses := ms mod uint32_modulus |}
  else Cache_Stats m = {| Hits := 0; Misses := 0 |}.
Proof.
  intros Hboot Hrun. destruct (boot_config _ _ _ Hboot) as (Ho & _ & _ & Hst).
  unfold Cache_Stats. destruct (stats_of os false) eqn:Hon.
  - destruct (run_stats_on cs m0 m 0 0 Hrun) as (h & ms & ? & ? & ? & Hst');
      try done; [by rewrite Ho|].
    exists h, ms. repeat split; try lia. done.
  - rewrite (run_stats_off _ _ _ Hrun) by (by rewrite Ho). done.
Qed.

(** X11: when a lookup blocks.  On a cache built by [New], after any
    program, [GetWithTimeout] never returns only when it has no timeout and
    the key is stored with a slot that is not resolved; in every other case
    it returns, and with a timeout it returns within that time. *)
Theorem blocks_only_on_unresolved t0 os m0 cs m key timeout :
  boot t0 os = Some m0 ->
  run cs m0 = Some m ->
  ((GetWithTimeout key timeout m).1 = Block <->
     timeout < 0 /\
     exists f sl, stored m key = Some f /\ heap m !! f = Some sl /\ reserved sl = false)
  /\ (GetWithTimeout key timeout m).1 <> Fault
  /\ (0 <= timeout ->
        (exists v e, (GetWithTimeout key timeout m).1 = Return v e) /\
        clock m <= clock (GetWithTimeout key timeout m).2 <= clock m + timeout).
Proof.
  intros Hboot Hrun. assert (wf m) as Hwf by eauto using run_wf, boot_wf.
  destruct (stored m key) as [f|] eqn:Hk.
  - destruct (store_valid _ _ _ Hwf Hk) as [sl Hf].
    pose proof (proj1 Hwf _ _ Hf) as Hq. unfold quiet in Hq.
    unfold stored, lru_Peek in Hk.
    unfold GetWithTimeout, getEntry, lru_Get. rewrite Hk. simpl. rewrite Hf.
    destruct (reserved sl) eqn:Hr.
    + destruct Hq as (Hl & _ & _).
      rewrite (getWithTimeout_finished _ _ Hl).
      destruct (Expired _ _); simpl.
      * split; [split; [done|]|].
        { intros (_ & f' & sl' & Hf' & Hsl' & Hr'). congruence. }
        split; [done|]. intros Ht. split; [eauto|lia].
      * split; [split; [by destruct (err (ent sl))|]|].
        { intros (_ & f' & sl' & Hf' & Hsl' & Hr'). congruence. }
        split; [by destruct (err (ent sl))|]. intros Ht.
        split; [unfold delivered; destruct (err (ent sl)); eauto|unfold Add; lia].
    + destruct Hq as (Hl & Hc & Hz & _).
      rewrite (getWithTimeout_pristine _ _ Hl Hc).
      unfold Expired. rewrite Hz. simpl.
      destruct (Z.ltb_spec timeout 0); simpl.
      * split; [split; [intros _; split; [done|]; by exists f, sl|done]|].
        split; [done|]. intros ?. lia.
      * split; [split; [done|intros [? _]; lia]|].
        split; [done|]. intros _. split; [eauto|unfold Add; lia].
  - unfold stored, lru_Peek in Hk.
    unfold GetWithTimeout, getEntry, lru_Get. rewrite Hk. simpl.
    split; [split; [done|]|].
    { intros (_ & f' & sl' & Hf' & _). done. }
    split; [done|]. intros ?. split; [eauto|lia].
Qed.


Lemma Expired_later (ce : entry V) t t' :
  Expired ce t = true -> t <= t' -> Expired ce t' = true.
Proof. intros Hx Ht. unfold Expired in *. ztests. Qed.

(** X13: expiry is for good.  Once a slot has expired, every later lookup
    of a key that still holds this slot answers [ErrExpired], whatever was
    called in between: the slot is written no more and the clock only moves
    on.  Only a new reservation of the key ends it. *)
Theorem expiry_is_permanent t0 os m0 cs0 m f sl cs m' key timeout :
  boot t0 os = Some m0 ->
  run cs0 m0 = Some m ->
  heap m !! f = Some sl ->
  Expired (ent sl) (clock m) = true ->
  run cs m = Some m' ->
  stored m' key = Some f ->
  (GetWithTimeout key timeout m').1 = Return zero (Some ErrExpired).
Proof.
  intros Hboot Hrun0 Hf Hx Hrun Hk.
  assert (wf m) as [Hq _] by eauto using run_wf, boot_wf.
  pose proof (Hq _ _ Hf) as Hsl. unfold quiet in Hsl.
  destruct (reserved sl) eqn:Hr.
  - destruct Hsl as (_ & _ & Hm).
    assert (heap m' !! f = Some sl) as Hf' by (eapply run_keeps; eauto; by left).
    rewrite (GetWithTimeout_stored _ _ _ _ _ Hk Hf').
    rewrite (Expired_later _ _ _ Hx); [done|]. by eapply run_clock.
  - destruct Hsl as (_ & _ & Hz & _). unfold Expired in Hx. rewrite Hz in Hx. done.
Qed.
End MoreCacheFacts.

(** ** The first version of the resolve closure *)

Section FirstVersion.
Context {K : Type} `{EqDecision K} {V : Type} `{Zero V}.
Implicit Types (m : machine K V) (sl : slot V).

(** X14: in the first version of the cache, without the guard, a second
    call of the resolve closure is not refused before it writes: it panics in
    [close], after it has replaced the value and the error and restarted the
    lifetime, so that readers of the slot (the receive is ready, the channel
    being closed) get the values of the second call from then on. *)
Theorem resolve_v1_overwrites m f sl v1 e1 :
  heap m !! f = Some sl ->
  lock (ent sl) = Some Chan ->
  closed sl = false ->
  exists m1,
    resolve_v1 f v1 e1 m = Some (Resolved_v1 m1) /\
    forall d v2 e2 timeout,
      0 <= d ->
      exists m2 sl2,
        resolve_v1 f v2 e2 (advance m1 d) =
          Some (Panicked_v1 "close of closed channel" m2) /\
        heap m2 !! f = Some sl2 /\
        getWithTimeout_v1 sl2 timeout = (delivered v2 e2, 0) /\
        (0 <= lifetime sl -> expireAt (ent sl2) = clock m + d + lifetime sl) /\
        forall key,
          stored m2 key = Some f ->
          (GetWithTimeout_v1 key timeout m2).1 =
            if Expired (ent sl2) (clock m2) then Return zero (Some ErrExpired)
            else delivered v2 e2.
Proof.
  intros Hf Hl Hc. assert (f < length (heap m))%nat as Hlen by (by eapply lookup_lt_Some).
  assert (lock (ent (stamp (clock m) (assign v1 e1 sl))) = Some Chan /\
          closed (stamp (clock m) (assign v1 e1 sl)) = false /\
          lifetime (stamp (clock m) (assign v1 e1 sl)) = lifetime sl) as (Hl1 & Hc1 & Hlt1).
  { unfold stamp. destruct (0 <=? lifetime _); simpl; done. }
  eexists. split.
  { unfold resolve_v1. rewrite Hf. simpl. by rewrite Hl1, Hc1. }
  intros d v2 e2 timeout Hd. unfold resolve_v1. simpl.
  rewrite list_lookup_insert_eq by done. simpl.
  set (sl1 := close (stamp (clock m) (assign v1 e1 sl))).
  assert (lock (ent (stamp (Add (clock m) d) (assign v2 e2 sl1))) = Some Chan /\
          closed (stamp (Add (clock m) d) (assign v2 e2 sl1)) = true /\
          value (ent (stamp (Add (clock m) d) (assign v2 e2 sl1))) = v2 /\
          err (ent (stamp (Add (clock m) d) (assign v2 e2 sl1))) = e2 /\
          (0 <= lifetime sl ->
           expireAt (ent (stamp (Add (clock m) d) (assign v2 e2 sl1))) =
             clock m + d + lifetime sl)) as (Hl2 & Hc2 & Hv2 & He2 & Hx2).
  { unfold stamp. subst sl1. simpl. rewrite Hlt1.
    destruct (Z.leb_spec 0 (lifetime sl)); simpl; rewrite ?Hl1; repeat split; try done;
      try (unfold Add; lia). }
  rewrite Hl2, Hc2. do 2 eexists. split; [done|]. simpl.
  split; [apply list_lookup_insert_eq; by rewrite length_insert|].
  assert (getWithTimeout_v1 (stamp (Add (clock m) d) (assign v2 e2 sl1)) timeout =
          (delivered v2 e2, 0)) as Hget.
  { unfold getWithTimeout_v1, read_entry, delivered. rewrite Hl2, Hc2, Hv2, He2.
    by destruct e2. }
  split; [done|]. split; [done|].
  intros key Hkey. unfold GetWithTimeout_v1. unfold stored in Hkey. simpl in *.
  pose proof (getEntry_fst (cch m) key) as Hfst.
  destruct (getEntry (cch m) key) as [entity c]. simpl in Hfst. subst entity.
  rewrite Hkey. simpl. rewrite list_lookup_insert_eq by (by rewrite length_insert).
  destruct (Expired _ _); [done|]. by rewrite Hget.
Qed.
End FirstVersion.

(** ** More on concurrent callers *)

Section MoreConcurrentFacts.
Context {K : Type} `{EqDecision K} {V : Type} `{Zero V}.
Implicit Types (m : machine K V) (sl : slot V) (s : cstate K V) (key : K).

(** X15: the resolve closure never closes a closed or a nil channel.  In
    every state concurrent callers can reach, a call of the closure that
    stands at [close(entry.lock)] finds the lock non-nil and the channel
    open, so this [close] cannot panic. *)
Theorem close_never_panics t0 os m0 acts s j f entity e :
  boot t0 os = Some m0 ->
  fires acts (start m0) = Some s ->
  threads s !! j = Some (TResolve f entity e RClose) ->
  exists sl,
    heap (mach s) !! f = Some sl /\ closed sl = false /\ lock (ent sl) = Some Chan.
Proof.
  intros Hboot Hfires Hj. pose proof (reachable_Inv _ _ _ _ _ Hboot Hfires) as HI.
  pose proof (inv_threads s HI _ _ Hj) as Hok. unfold thread_ok in Hok. simpl in Hok.
  destruct Hok as (sl & Hf & _ & _ & Hc & _). exists sl. split; [done|]. split; [done|].
  destruct (inv_slots s HI _ _ Hf) as [_ Hnil].
  destruct (lock (ent sl)) as [[]|]; [done|]. rewrite Hnil in Hc; done.
Qed.

Lemma resolve_step_mux now entity e pc sl sl' pc' :
  resolve_step now entity e pc sl = Some (sl', pc') ->
  mux sl' = true -> holding pc' = true.
Proof.
  destruct pc; simpl; try done.
  - destruct (mux sl); [done|]. by intros [= <- <-].
  - destruct (reserved sl); by intros [= <- <-].
  - by intros [= <- <-].
  - by intros [= <- <-].
  - by intros [= <- <-].
  - by intros [= <- <-].
  - by intros [= <- <-].
  - by intros [= <- <-].
Qed.

Lemma get_step_heap m key timeout pc m' (t' : thread K V) :
  thread_step m (TGet key timeout pc) = Some (m', t') ->
  heap m' = heap m /\ exists pc', t' = TGet key timeout pc'.
Proof.
  intros Hstep. destruct pc as [|a|a|a|a dl|a|?|? ? ?]; simpl in Hstep; try done.
  - destruct (getEntry (cch m) key) as [entity cc]. injection Hstep as <- <-. eauto.
  - destruct (heap m !! a) as [sl|]; [|done]. simpl in Hstep. injection Hstep as <- <-.
    eauto.
  - destruct (heap m !! a) as [sl|]; [|done]. simpl in Hstep. injection Hstep as <- <-.
    eauto.
  - destruct (heap m !! a) as [sl|]; [|done]. simpl in Hstep.
    destruct (closed sl); [|done]. injection Hstep as <- <-. eauto.
  - destruct (heap m !! a) as [sl|]; [|done]. simpl in Hstep.
    destruct (closed sl); [|done]. injection Hstep as <- <-. eauto.
  - destruct (heap m !! a) as [sl|]; [|done]. simpl in Hstep. injection Hstep as <- <-.
    eauto.
Qed.

Lemma mux_owned_replace_get s i key timeout pc pc' mm :
  mux_owned s ->
  threads s !! i = Some (TGet key timeout pc) ->
  heap mm = heap (mach s) ->
  mux_owned {| mach := mm; threads := <[i := TGet key timeout pc']> (threads s) |}.
Proof.
  intros Hown Hi Hheap f sl Hf Hm. simpl in *. rewrite Hheap in Hf.
  destruct (Hown f sl Hf Hm) as (j & t & Hj & Hh). exists j, t. split; [|done].
  rewrite list_lookup_insert_ne; [done|]. intros <-.
  rewrite Hi in Hj. by injection Hj as <-.
Qed.

Lemma fire_mux_owned act s s' : mux_owned s -> fire act s = Some s' -> mux_owned s'.
Proof.
  intros Hown Hfire. destruct act as [d|key timeout|key lt|f entity e|i|i]; simpl in Hfire.
  - destruct (0 <? d); [|done]. injection Hfire as <-. exact Hown.
  - injection Hfire as <-. intros f sl Hf Hm. simpl in *.
    destruct (Hown f sl Hf Hm) as (j & t & Hj & Hh). exists j, t.
    split; [by apply lookup_app_l_Some|done].
  - injection Hfire as <-. intros f sl Hf Hm. simpl in *.
    apply lookup_app_Some in Hf as [Hf|[_ Hf]]; [by apply (Hown f sl)|].
    destruct (f - length (heap (mach s)))%nat; [|done]. injection Hf as <-. done.
  - destruct (heap (mach s) !! f); [|done]. injection Hfire as <-.
    intros g sl Hg Hm. simpl in *.
    destruct (Hown g sl Hg Hm) as (j & t & Hj & Hh). exists j, t.
    split; [by apply lookup_app_l_Some|done].
  - destruct (threads s !! i) as [t|] eqn:Hi; [|done]. simpl in Hfire.
    destruct (thread_step (mach s) t) as [[m' t']|] eqn:Hstep; [|done].
    simpl in Hfire. injection Hfire as <-.
    destruct t as [key timeout pc|f entity e pc].
    + apply get_step_heap in Hstep as (Hheap & pc' & ->).
      by eapply mux_owned_replace_get.
    + simpl in Hstep. destruct (heap (mach s) !! f) as [sl|] eqn:Hf; [|done].
      simpl in Hstep.
      destruct (resolve_step _ _ _ _ _) as [[sl' pc']|] eqn:Hrs; [|done].
      simpl in Hstep. injection Hstep as <- <-.
      assert (i < length (threads s))%nat as Hlen by (by eapply lookup_lt_Some).
      intros g slg Hg Hm. simpl in *.
      apply list_lookup_insert_Some in Hg as [(<- & <- & _)|[Hne Hg]].
      * exists i. eexists. split; [by apply list_lookup_insert_eq|].
        split; [done|]. by eapply resolve_step_mux.
      * destruct (Hown g slg Hg Hm) as (j & t & Hj & Hh). exists j, t. split; [|done].
        rewrite list_lookup_insert_ne; [done|]. intros <-.
        rewrite Hi in Hj. injection Hj as <-. by destruct Hh as [-> _].
  - destruct (threads s !! i) as [t|] eqn:Hi; [|done]. simpl in Hfire.
    destruct (thread_timeout (mach s) t) as [t'|] eqn:Hto; [|done].
    simpl in Hfire. injection Hfire as <-.
    destruct t as [key timeout pc|]; [|done].
    destruct pc as [|?|?|?|a0 dl|?|?|? ? ?]; try done. simpl in Hto.
    destruct (_ <=? _); [|done]. injection Hto as <-.
    by eapply mux_owned_replace_get.
Qed.

Lemma fires_mux_owned acts s s' : mux_owned s -> fires acts s = Some s' -> mux_owned s'.
Proof.
  revert s. induction acts as [|act acts IH]; intros s Hown Hf; simpl in Hf.
  - by injection Hf as <-.
  - destruct (fire act s) as [s1|] eqn:Hact; [|done]. eauto using fire_mux_owned.
Qed.

(** X16: the mutex of a resolve closure.  In every state concurrent
    callers can reach, at most one goroutine is between the [Lock] and the
    deferred [Unlock] of the closure of a slot, and the mutex of the slot is
    held exactly when there is one: a call that has returned or panicked has
    released it. *)
Theorem mutex_excludes_and_is_released t0 os m0 acts s :
  boot t0 os = Some m0 ->
  fires acts (start m0) = Some s ->
  (forall i j ti tj f,
     threads s !! i = Some ti -> threads s !! j = Some tj ->
     holds ti f -> holds tj f -> i = j)
  /\ (forall f sl,
        heap (mach s) !! f = Some sl ->
        (mux sl = true <-> exists j t, threads s !! j = Some t /\ holds t f)).
Proof.
  intros Hboot Hfires. pose proof (reachable_Inv _ _ _ _ _ Hboot Hfires) as HI.
  split; [apply (inv_holder s HI)|]. intros f sl Hf. split.
  - eapply fires_mux_owned; [|done..].
    intros g slg Hg. apply boot_clock in Hboot as [_ Hheap]. simpl in Hg.
    rewrite Hheap in Hg. by rewrite lookup_nil in Hg.
  - intros (j & t & Hj & Hh). destruct t as [? ? ?|g entity e pc]; [done|].
    destruct Hh as [-> Hh].
    pose proof (thread_ok_resolve _ _ _ _ _ _ (inv_threads s HI _ _ Hj) Hf) as Hfact.
    by eapply holding_fact_mux.
Qed.

(** X17: one producer per key, when the key is reserved once.  If [key]
    is reserved exactly once among concurrent callers, every caller of
    [GetWithTimeout] on [key] that returns from its wait has waited on the
    slot of that reservation, and returns what the one call of its closure
    that passed the guard was given. *)
Theorem single_producer_per_key t0 os m0 acts1 s1 key lt s1' acts2 s2 :
  boot t0 os = Some m0 ->
  fires acts1 (start m0) = Some s1 ->
  forallb (fun act => negb (reserves_key key act)) acts1 = true ->
  fire (CallRWL key lt) s1 = Some s1' ->
  fires acts2 s1' = Some s2 ->
  forallb (fun act => negb (reserves_key key act)) acts2 = true ->
  forall i timeout a v e,
    threads s2 !! i = Some (TGet key timeout (GGot a v e)) ->
    a = length (heap (mach s1)) /\
    exists j entity er pc,
      threads s2 !! j = Some (TResolve a entity er pc) /\ won pc = true /\
      Return v e = delivered entity er /\
      forall j' entity' er' pc',
        threads s2 !! j' = Some (TResolve a entity' er' pc') -> won pc' = true ->
        j' = j.
Proof.
  intros Hboot H1 Hn1 Hres H2 Hn2 i timeout a v e Hi.
  assert (Inv s2) as HI.
  { eapply fires_Inv; [|exact H2]. eapply fire_Inv; [|exact Hres].
    eapply fires_Inv; [|exact H1]. by eapply Inv_start. }
  destruct (key_reserved_once_waiters_agree _ _ _ _ _ _ _ _ _ _
              Hboot H1 Hn1 Hres H2 Hn2 _ _ _ _ _ _ _ _ _ _ Hi Hi) as [Ha _].
  split; [done|].
  destruct (got_slot _ _ _ _ _ _ _ HI Hi) as (sl & Hsl & Hc & Hre).
  destruct (closed_slot_read s2 a sl HI Hsl Hc) as (j & entity & er & pc & Hj & Hw & Hret).
  exists j, entity, er, pc. split; [done|]. split; [done|].
  split; [by rewrite Hre in Hret|].
  intros j' entity' er' pc' Hj' Hw'.
  by apply (inv_winner s2 HI j' j _ _ a Hj' Hj).
Qed.
End MoreConcurrentFacts.

(** ** Instances of the further theorems *)

(** The default lifetime given to [New] is the one [Reserve] uses after a
    program. *)
Lemma configuration_is_fixed_witness :
  let m := reserved_k [WithDefaultLifetime 30] 5 in
  opts (cch m) = {| opt_size := 1024; opt_withStats := false; opt_defaultLifetime := 30 |}
  /\ Reserve "j" m = ReserveWithLifetime "j" 30 m.
Proof.
  exact (configuration_is_fixed 1 [WithDefaultLifetime 30] (fresh [WithDefaultLifetime 30])
           [CallReserveWithLifetime "k" 5] (reserved_k [WithDefaultLifetime 30] 5) "j"
           eq_refl eq_refl).
Defined.

(** Three reservations on a cache of capacity 2. *)
Lemma Len_within_capacity_witness :
  let m := after (sized 2)
             (run [CallReserve "a"; CallReserve "b"; CallReserve "c"] (sized 2)) in
  0 <= Len m <= 2 /\ NoDup (lru_items (cache (cch m))).*1.
Proof.
  exact (Len_within_capacity 1 [WithSize 2] (sized 2)
           [CallReserve "a"; CallReserve "b"; CallReserve "c"] _ eq_refl eq_refl).
Defined.

(** On a full cache of capacity 2 a reservation of a third key leaves
    [Len] at 2. *)
Lemma Len_changes_witness :
  let m := after (sized 2) (run [CallReserve "a"; CallReserve "b"] (sized 2)) in
  Len (ReserveWithLifetime "c" 5 m).2 = 2
  /\ Len (GetWithTimeout "a" 0 m).2 = 2.
Proof.
  intros m.
  pose proof (Len_changes 1 [WithSize 2] (sized 2) [CallReserve "a"; CallReserve "b"] m
                "c" 5 0 0%nat "v" None m eq_refl eq_refl) as (Hres & _ & _).
  pose proof (Len_changes 1 [WithSize 2] (sized 2) [CallReserve "a"; CallReserve "b"] m
                "a" 5 0 0%nat "v" None m eq_refl eq_refl) as (_ & Hget & _).
  split; [exact Hres|exact Hget].
Defined.

(** On a full cache of capacity 2, ["a"] is the older key; once looked up
    it survives the reservation of ["c"]. *)
Lemma recent_key_survives_witness :
  let m := after (sized 2) (run [CallReserve "a"; CallReserve "b"] (sized 2)) in
  stored (ReserveWithLifetime "c" 5 (GetWithTimeout "a" 0 m).2).2 "a" = Some 0%nat
  /\ stored (ReserveWithLifetime "c" 5 m).2 "a" = None.
Proof.
  intros m.
  assert (2 <= lru_size (cache (cch m))) as Hsize by (vm_compute; discriminate).
  assert ("c" <> "a") as Hne by discriminate.
  destruct (recent_key_survives m "a" 0%nat 0 7 "c" 5 Hsize Hne) as [Hget _].
  split; [exact (Hget eq_refl)|reflexivity].
Defined.


(** ["k"], resolved in slot 0, is reserved again. *)
Lemma reserve_replaces_witness :
  let m := resolved_k [] 30 None in
  (ReserveWithLifetime "k" 5 m).1 <> 0%nat
  /\ stored (ReserveWithLifetime "k" 5 m).2 "k" = Some 1%nat
  /\ (GetWithTimeout "k" 0 (ReserveWithLifetime "k" 5 m).2).1
     = Return "" (Some ErrGetCacheTimeout).
Proof.
  intros m.
  destruct (reserve_replaces 1 [] (fresh [])
              [CallReserveWithLifetime "k" 30; CallResolve 0%nat "v" None] m "k" 0%nat 5
              eq_refl eq_refl eq_refl) as (Hne & Hst & _ & _ & _ & Hget).
  split; [exact Hne|]. split; [exact Hst|exact Hget].
Defined.

(** The closure of slot 0 is called after its key has been reserved
    again. *)
Lemma first_resolve_succeeds_witness :
  let m2 := after (fresh [])
              (run [CallReserveWithLifetime "k" 5; CallSleep 2] (reserved_k [] 30)) in
  exists m3,
    resolve 0%nat "v" None m2 = Resolved m3 /\ cch m3 = cch m2 /\ clock m3 = clock m2.
Proof.
  intros m2.
  destruct (first_resolve_succeeds (fresh []) "k" 30
              [CallReserveWithLifetime "k" 5; CallSleep 2] m2 "v" None eq_refl)
    as (m3 & Hres & Hc & Hcl & _).
  - by repeat constructor.
  - exists m3. split; [exact Hres|]. split; [exact Hc|exact Hcl].
Defined.

(** With statistics on, two lookups among four calls. *)
Lemma stats_count_lookups_witness :
  let cs := [CallGet "k"; CallReserveWithLifetime "k" 30; CallResolve 0%nat "v" None;
             CallGet "k"] in
  let m := after (fresh [WithStats]) (run cs (fresh [WithStats])) in
  exists h ms,
    0 <= h /\ 0 <= ms /\ h + ms = 2 /\
    Cache_Stats m = {| Hits := h mod uint32_modulus; Misses := ms mod uint32_modulus |}.
Proof.
  exact (stats_count_lookups 1 [WithStats] (fresh [WithStats])
           [CallGet "k"; CallReserveWithLifetime "k" 30; CallResolve 0%nat "v" None;
            CallGet "k"] _ eq_refl eq_refl).
Defined.

(** [Get] of ["k"], reserved and not resolved, does not return; with a
    timeout it does. *)
Lemma blocks_only_on_unresolved_witness :
  (Get "k" (reserved_k [] 30)).1 = Block
  /\ exists v e, (GetWithTimeout "k" 4 (reserved_k [] 30)).1 = Return v e.
Proof.
  split.
  - destruct (blocks_only_on_unresolved 1 [] (fresh []) [CallReserveWithLifetime "k" 30]
                (reserved_k [] 30) "k" (-1) eq_refl eq_refl) as ([_ Hblock] & _ & _).
    apply Hblock. split; [reflexivity|]. eexists _, _. repeat split; reflexivity.
  - destruct (blocks_only_on_unresolved 1 [] (fresh []) [CallReserveWithLifetime "k" 30]
                (reserved_k [] 30) "k" 4 eq_refl eq_refl) as (_ & _ & Hret).
    apply Hret. vm_compute. discriminate.
Defined.


(** ["k"], resolved with lifetime 0, has expired one nanosecond later and
    stays so. *)
Lemma expiry_is_permanent_witness :
  let m := slept 1 (resolved_k [] 0 None) in
  let m' := after m (run [CallSleep 5; CallGet "j"; CallResolve 0%nat "w" None] m) in
  (Get "k" m').1 = Return "" (Some ErrExpired).
Proof.
  intros m m'.
  exact (expiry_is_permanent 1 [] (fresh [])
           [CallReserveWithLifetime "k" 0; CallResolve 0%nat "v" None; CallSleep 1] m 0%nat
           {| ent := {| lock := None; value := "v"; err := None; expireAt := 1 |};
              closed := true; mux := false; reserved := true; lifetime := 0 |}
           [CallSleep 5; CallGet "j"; CallResolve 0%nat "w" None] m' "k" (-1)
           eq_refl eq_refl eq_refl eq_refl eq_refl eq_refl).
Defined.

(** In the first version, the closure of ["k"] is called with ["v1"] and,
    four nanoseconds later, with ["v2"]. *)
Lemma resolve_v1_overwrites_witness :
  exists m1,
    resolve_v1 0%nat "v1" None (reserved_k [] 30) = Some (Resolved_v1 m1) /\
    exists m2,
      resolve_v1 0%nat "v2" None (advance m1 4) =
        Some (Panicked_v1 "close of closed channel" m2) /\
      (GetWithTimeout_v1 "k" (-1) m2).1 = Return "v2" None.
Proof.
  destruct (resolve_v1_overwrites (reserved_k [] 30) 0%nat
              {| ent := {| lock := Some Chan; value := ""; err := None; expireAt := 0 |};
                 closed := false; mux := false; reserved := false; lifetime := 30 |}
              "v1" None eq_refl eq_refl eq_refl) as (m1 & Hres & Hnext).
  exists m1. split; [exact Hres|].
  assert (0 <= 4) as Hpos by (vm_compute; discriminate).
  destruct (Hnext 4 "v2" None (-1) Hpos) as (m2 & sl2 & Hpanic & Hsl & _ & _ & Hget).
  exists m2. split; [exact Hpanic|].
  vm_compute in Hres. injection Hres as <-.
  vm_compute in Hpanic. injection Hpanic as <-.
  vm_compute in Hsl. injection Hsl as <-.
  exact (Hget "k" eq_refl).
Defined.

(** A call of the closure of ["k"] stands at [close]. *)
Lemma close_never_panics_witness :
  exists sl,
    heap (mach (reached closure_at_close (start (fresh [])))) !! 0%nat = Some sl
    /\ closed sl = false /\ lock (ent sl) = Some Chan.
Proof.
  exact (close_never_panics 1 [] (fresh []) closure_at_close
           (reached closure_at_close (start (fresh []))) 0%nat 0%nat "v" None
           eq_refl eq_refl eq_refl).
Defined.

(** While a call of the closure of ["k"] stands at [close], the mutex of
    slot 0 is held, by that call. *)
Lemma mutex_excludes_and_is_released_witness :
  let s := reached closure_at_close (start (fresh [])) in
  exists sl,
    heap (mach s) !! 0%nat = Some sl /\ mux sl = true /\
    forall j t, threads s !! j = Some t -> holds t 0%nat -> j = 0%nat.
Proof.
  intros s.
  destruct (mutex_excludes_and_is_released 1 [] (fresh []) closure_at_close s
              eq_refl eq_refl) as [Hexcl Hmux].
  eexists. split; [reflexivity|]. split; [reflexivity|].
  intros j t Hj Hh.
  apply (Hexcl j 0%nat t (TResolve 0%nat "v" None RClose) 0%nat Hj eq_refl Hh).
  split; reflexivity.
Defined.

(** ["k"] is looked up, reserved once, waited for and resolved: the
    waiter returns what the producer gave. *)
Lemma single_producer_per_key_witness :
  let s1 := reached lookup_before_reservation (start (fresh [])) in
  let s1' := reached [CallRWL "k" 30] s1 in
  let s2 := reached one_producer s1' in
  threads s2 !! 1%nat = Some (TGet "k" (-1) (GGot 0%nat "v" None))
  /\ exists j entity er pc,
       threads s2 !! j = Some (TResolve 0%nat entity er pc) /\ won pc = true /\
       Return "v" None = delivered entity er.
Proof.
  intros s1 s1' s2. split; [reflexivity|].
  destruct (single_producer_per_key 1 [] (fresh []) lookup_before_reservation s1 "k" 30 s1'
              one_producer s2 eq_refl eq_refl eq_refl eq_refl eq_refl eq_refl
              1%nat (-1) 0%nat "v" None eq_refl)
    as (_ & j & entity & er & pc & Hj & Hw & Hret & _).
  exists j, entity, er, pc. split; [exact Hj|]. split; [exact Hw|exact Hret].
Defined.
